(** * AutoTagWords (src/main.ts): a shallow embedding and its properties

    The plugin keeps a registry of the tags found in the vault and rewrites
    plain words that equal a tag's bare word into the tagged form.  The
    matching is done by the host's regular-expression engine and by
    [String.prototype.replace]; both are modelled here for the fragment of
    patterns and replacement templates that the plugin builds:

    - a string is a list of characters ([list ascii]), each read as the
      UTF-16 code unit of its code: the strings of the embedding are those
      whose code units are below 256 (Basic Latin and Latin-1 Supplement).
      Case mapping, Canonicalize and the word-character class are those of
      ECMAScript on that range; a text or a tag with a code unit of 256 or
      more is outside the embedding;
    - a pattern is parsed from its source text into a sequence of terms
      (negative look-behind of a literal, word boundary, literal character,
      character class); a pattern outside that fragment does not compile;
    - the vault is a finite map from paths to contents, with the reads and
      writes that fail given by two sets of paths, and a trace of the
      operations performed;
    - the methods are modelled as they run once called, each call running
      to its end before the next, with the registry fixed while a scan
      runs;
    - the timers of [onload] (the delay after a modification, the debounce
      of the editor) are modelled by the host's list of pending timers
      over a time counted in milliseconds: [setTimeout] adds a timer,
      [clearTimeout] drops one, and the timers due fire in order as time
      passes. *)

From Stdlib Require Import Ascii String List Bool Arith Lia DecimalString.
From stdpp Require Import base option list gmap strings.
Import ListNotations.

Local Open Scope char_scope.
Local Open Scope list_scope.

(** ** Strings and characters *)

Abbreviation jsstring := (list ascii).

(** A string literal as a list of characters. *)
Definition str (s : string) : jsstring := list_ascii_of_string s.

Definition code (c : ascii) : nat := nat_of_ascii c.

Definition in_range (lo hi : nat) (c : ascii) : bool :=
  Nat.leb lo (code c) && Nat.leb (code c) hi.

Definition is_upper (c : ascii) : bool := in_range 65 90 c.
Definition is_lower (c : ascii) : bool := in_range 97 122 c.
Definition is_digit (c : ascii) : bool := in_range 48 57 c.

(** The upper-case letters of the Latin-1 Supplement, U+00C0 to U+00DE
    without the multiplication sign U+00D7, and the lower-case letters that
    have an upper-case form in it, U+00E0 to U+00FE without the division
    sign U+00F7. *)
Definition is_upper_latin1 (c : ascii) : bool :=
  in_range 192 222 c && negb (Nat.eqb (code c) 215).
Definition is_lower_latin1 (c : ascii) : bool :=
  in_range 224 254 c && negb (Nat.eqb (code c) 247).

(** [String.prototype.toLowerCase], one character: on code units below 256
    the mapping has no context-dependent case and moves [A-Z] and the
    upper-case Latin-1 letters by 32. *)
Definition lower_char (c : ascii) : ascii :=
  if is_upper c || is_upper_latin1 c then ascii_of_nat (code c + 32) else c.

Definition toLowerCase (s : jsstring) : jsstring := map lower_char s.

(** The abstract operation Canonicalize of the engine when the pattern is
    case-insensitive and not in Unicode mode: the upper-case mapping of one
    code unit, kept when the result is a single code unit and does not move
    a non-ASCII character into ASCII.  On code units below 256 it moves
    [a-z] and the lower-case Latin-1 letters by 32 and keeps U+00DF (its
    upper case is two code units).  Two characters are left: U+00B5 and
    U+00FF, whose upper-case forms U+039C and U+0178 are above 255; no
    other code unit below 256 is mapped to those, so keeping the two
    characters gives the same equalities between canonical forms, which is
    all the matcher uses ([char_eq]). *)
Definition canonicalize (c : ascii) : ascii :=
  if is_lower c || is_lower_latin1 c then ascii_of_nat (code c - 32) else c.

(** IsWordChar: the class [A-Za-z0-9_]. *)
Definition is_word (c : ascii) : bool :=
  is_upper c || is_lower c || is_digit c || Ascii.eqb c "_".

(** [s.slice(1)]: the string without its first character. *)
Definition slice1 (s : jsstring) : jsstring := drop 1 s.

Fixpoint is_prefix (p s : jsstring) : bool :=
  match p, s with
  | [], _ => true
  | _ :: _, [] => false
  | a :: p', b :: s' => Ascii.eqb a b && is_prefix p' s'
  end.

(** [s.includes(sub)] on strings: [sub] occurs somewhere in [s]. *)
Fixpoint String_includes (s sub : jsstring) : bool :=
  is_prefix sub s ||
  match s with
  | [] => false
  | _ :: s' => String_includes s' sub
  end.

Fixpoint jsstring_eqb (s t : jsstring) : bool :=
  match s, t with
  | [], [] => true
  | a :: s', b :: t' => Ascii.eqb a b && jsstring_eqb s' t'
  | _, _ => false
  end.

(** [a.includes(x)] on arrays of strings. *)
Definition Array_includes (a : list jsstring) (x : jsstring) : bool :=
  existsb (jsstring_eqb x) a.

(** ** Regular expressions: the fragment the plugin uses *)

Module Regex.

Inductive term : Type :=
| NegLookbehind (cs : jsstring)   (* (?<!cs), cs a literal sequence *)
| WordBoundary                    (* \b *)
| Lit (c : ascii)                 (* a pattern character or identity escape *)
| Class (cs : jsstring).          (* [cs], no ranges, not negated *)

Record RegExp : Type := mkRegExp {
  terms : list term;
  global : bool;
  ignoreCase : bool
}.

(** SyntaxCharacter of the pattern grammar. *)
Definition syntax_chars : jsstring := str "^$\.*+?()[]{}|".

Definition is_syntax_char (c : ascii) : bool :=
  existsb (Ascii.eqb c) syntax_chars.

(** Where the parser is: at top level, inside the body of a negative
    look-behind, or inside a character class.  The characters read so far
    are kept in reverse. *)
Inductive mode : Type :=
| Top
| InLookbehind (acc : jsstring)
| InClass (acc : jsstring).

(** The parser.  [None] is a SyntaxError or a pattern outside the
    fragment (quantifiers, alternation, groups, ranges, other escapes). *)
Fixpoint parse (m : mode) (p : jsstring) : option (list term) :=
  match m, p with
  | Top, [] => Some []
  | Top, "\" :: "b" :: p' => cons WordBoundary <$> parse Top p'
  | Top, "\" :: c :: p' =>
      if is_syntax_char c || Ascii.eqb c "/"
      then cons (Lit c) <$> parse Top p' else None
  | Top, "(" :: "?" :: "<" :: "!" :: p' => parse (InLookbehind []) p'
  | Top, "[" :: "^" :: _ => None
  | Top, "[" :: p' => parse (InClass []) p'
  | Top, c :: p' =>
      if is_syntax_char c then None else cons (Lit c) <$> parse Top p'
  | InLookbehind acc, ")" :: p' =>
      cons (NegLookbehind (rev acc)) <$> parse Top p'
  | InLookbehind acc, "\" :: c :: p' =>
      if is_syntax_char c || Ascii.eqb c "/"
      then parse (InLookbehind (c :: acc)) p' else None
  | InLookbehind acc, c :: p' =>
      if is_syntax_char c then None else parse (InLookbehind (c :: acc)) p'
  | InLookbehind _, [] => None
  | InClass acc, "]" :: p' => cons (Class (rev acc)) <$> parse Top p'
  | InClass acc, "\" :: c :: p' =>
      if is_syntax_char c || Ascii.eqb c "/"
      then parse (InClass (c :: acc)) p' else None
  | InClass acc, "-" :: _ => None
  | InClass acc, c :: p' => parse (InClass (c :: acc)) p'
  | InClass _, [] => None
  end.

(** [new RegExp(pattern, flags)]. *)
Definition new_RegExp (pattern flags : jsstring) : option RegExp :=
  ts ← parse Top pattern;
  Some (mkRegExp ts (existsb (Ascii.eqb "g") flags)
                    (existsb (Ascii.eqb "i") flags)).

(** Character comparison, canonicalized when the pattern ignores case. *)
Definition char_eq (ic : bool) (a b : ascii) : bool :=
  if ic then Ascii.eqb (canonicalize a) (canonicalize b) else Ascii.eqb a b.

(** Whether the character next to the position on one side is a word
    character; there is none at either end of the input. *)
Definition word_at (s : jsstring) : bool :=
  match s with
  | [] => false
  | c :: _ => is_word c
  end.

(** The look-behind body [cs] read backwards from the position: [before]
    holds the input to the left of the position, nearest character first. *)
Fixpoint behind (ic : bool) (rcs before : jsstring) : bool :=
  match rcs, before with
  | [], _ => true
  | _ :: _, [] => false
  | c :: rcs', x :: before' => char_eq ic c x && behind ic rcs' before'
  end.

(** The matcher at one position.  [before] is the input to the left of the
    position in reverse, [after] the input from the position on.  The
    result is the matched text and the input that follows it. *)
Fixpoint match_terms (ic : bool) (ts : list term) (before after : jsstring)
  : option (jsstring * jsstring) :=
  match ts with
  | [] => Some ([], after)
  | NegLookbehind cs :: ts' =>
      if behind ic (rev cs) before then None
      else match_terms ic ts' before after
  | WordBoundary :: ts' =>
      if xorb (word_at before) (word_at after)
      then match_terms ic ts' before after else None
  | Lit c :: ts' =>
      match after with
      | x :: after' =>
          if char_eq ic c x
          then '(m, rest) ← match_terms ic ts' (x :: before) after';
               Some (x :: m, rest)
          else None
      | [] => None
      end
  | Class cs :: ts' =>
      match after with
      | x :: after' =>
          if existsb (fun c => char_eq ic c x) cs
          then '(m, rest) ← match_terms ic ts' (x :: before) after';
               Some (x :: m, rest)
          else None
      | [] => None
      end
  end.

(** GetSubstitution for a pattern without capture groups: [$$] is a dollar
    sign, [$&] the matched text, [$`] the input before the match, [$'] the
    input after it; any other dollar sign stands for itself. *)
Fixpoint substitution (template matched before rest : jsstring) : jsstring :=
  match template with
  | [] => []
  | "$" :: "$" :: t => "$" :: substitution t matched before rest
  | "$" :: "&" :: t => matched ++ substitution t matched before rest
  | "$" :: "`" :: t => rev before ++ substitution t matched before rest
  | "$" :: "'" :: t => rest ++ substitution t matched before rest
  | c :: t => c :: substitution t matched before rest
  end.

(** The replacement loop of [RegExp.prototype[Symbol.replace]]: the
    matcher is tried at each position from left to right; a match is
    replaced by its substitution and the search resumes after it (one
    character further when the match is empty, that character being
    copied); without a match the character at the position is copied.
    Without the global flag only the first match is replaced.  [fuel]
    bounds the number of positions tried. *)
Fixpoint replace_from (fuel : nat) (re : RegExp) (template : jsstring)
    (before after : jsstring) : jsstring :=
  match fuel with
  | 0 => after
  | S fuel' =>
      match match_terms (ignoreCase re) (terms re) before after with
      | Some (m, rest) =>
          substitution template m before rest ++
          (if global re then
             match m with
             | [] =>
                 match after with
                 | [] => []
                 | c :: after' =>
                     c :: replace_from fuel' re template (c :: before) after'
                 end
             | _ :: _ => replace_from fuel' re template (rev m ++ before) rest
             end
           else rest)
      | None =>
          match after with
          | [] => []
          | c :: after' =>
              c :: replace_from fuel' re template (c :: before) after'
          end
      end
  end.

(** [s.replace(re, template)]. *)
Definition replace (s : jsstring) (re : RegExp) (template : jsstring)
  : jsstring :=
  replace_from (S (length s)) re template [] s.

End Regex.

Import Regex.

(** ** The plugin *)

(** [/[.*+?^${}()|[\]\\]/g], the pattern of [escapeRegExp]. *)
Definition escape_pattern : jsstring := str "[.*+?^${}()|[\]\\]".

(** What that pattern compiles to (see [escape_regex_compiles]). *)
Definition escape_regex : RegExp :=
  mkRegExp [Class (str ".*+?^${}()|[]\")] true false.

(** [escapeRegExp(string)]: [string.replace(/[.*+?^${}()|[\]\\]/g, '\\$&')]. *)
Definition escapeRegExp (s : jsstring) : jsstring :=
  replace s escape_regex (str "\$&").

(** The pattern text [`(?<!#)\\b${escapedWord}\\b`]. *)
Definition tag_pattern (escapedWord : jsstring) : jsstring :=
  str "(?<!#)\b" ++ escapedWord ++ str "\b".

(** One turn of the loop over the tags in [processFile]: the tag's rule is
    built and applied to the working copy.  [None] stands for an exception
    thrown by [new RegExp]. *)
Definition rewrite_step (acc : jsstring * bool) (tag : jsstring)
  : option (jsstring * bool) :=
  let '(newContent, changed) := acc in
  let word := toLowerCase (slice1 tag) in
  let escapedWord := escapeRegExp word in
  regex ← new_RegExp (tag_pattern escapedWord) (str "gi");
  let updatedContent := replace newContent regex ("#" :: word) in
  if negb (jsstring_eqb updatedContent newContent)
  then Some (updatedContent, true)
  else Some (newContent, changed).

(** [for (const tag of this.tags)] in [processFile]. *)
Fixpoint rewrite_loop (tags : list jsstring) (acc : jsstring * bool)
  : option (jsstring * bool) :=
  match tags with
  | [] => Some acc
  | tag :: tags' => acc' ← rewrite_step acc tag; rewrite_loop tags' acc'
  end.

(** The rewrite pass of [processFile] (main.ts, lines 76 to 89) on a
    content: [newContent] and [changed] after the loop. *)
Definition RewriteEngine (tags : list jsstring) (content : jsstring)
  : option (jsstring * bool) :=
  rewrite_loop tags (content, false).

(** *** The host: vault, metadata cache, console *)

Record TFile : Type := mkTFile {
  path : jsstring;
  basename : jsstring;
  extension : jsstring
}.

Record TagCache : Type := mkTagCache { tag : jsstring }.

(** The cached metadata of a file; [cm_tags] is its optional [tags]. *)
Record CachedMetadata : Type := mkCache { cm_tags : option (list TagCache) }.

Inductive event : Type :=
| EvRead (p : jsstring)                    (* vault.read was called *)
| EvModify (p : jsstring) (data : jsstring)  (* vault.modify was called *)
| EvLog (msg : jsstring)                   (* console.log *)
| EvError (msg : jsstring).                (* console.error *)

Inductive error : Type :=
| IOError (p : jsstring)
| SyntaxError.

(** The plugin instance together with the application it runs in.  [tags]
    is the registry [this.tags]; [unreadable] and [unwritable] are the
    paths whose read or write is rejected; [trace] lists the host calls
    made so far, oldest first. *)
Record state : Type := mkState {
  files : list TFile;
  contents : gmap jsstring jsstring;
  unreadable : gset jsstring;
  unwritable : gset jsstring;
  metadata : gmap jsstring CachedMetadata;
  tags : list jsstring;
  trace : list event
}.

Definition set_contents (m : gmap jsstring jsstring) (s : state) : state :=
  mkState (files s) m (unreadable s) (unwritable s) (metadata s) (tags s)
          (trace s).

Definition set_tags (ts : list jsstring) (s : state) : state :=
  mkState (files s) (contents s) (unreadable s) (unwritable s) (metadata s)
          ts (trace s).

Definition emit (e : event) (s : state) : state :=
  mkState (files s) (contents s) (unreadable s) (unwritable s) (metadata s)
          (tags s) (trace s ++ [e]).

(** Computations of the plugin: they read and change the state and either
    return a value or throw. *)
Definition M (A : Type) : Type := state -> (error + A) * state.

Definition ret {A} (a : A) : M A := fun s => (inr a, s).

Definition bind {A B} (m : M A) (k : A -> M B) : M B :=
  fun s =>
    match m s with
    | (inl e, s') => (inl e, s')
    | (inr a, s') => k a s'
    end.

Definition throw {A} (e : error) : M A := fun s => (inl e, s).

(** [try { body } catch (error) { handler }]. *)
Definition try_catch {A} (body : M A) (handler : error -> M A) : M A :=
  fun s =>
    match body s with
    | (inl e, s') => handler e s'
    | (inr a, s') => (inr a, s')
    end.

#[global] Instance M_ret : MRet M := @ret.
#[global] Instance M_bind : MBind M := fun A B k m => bind m k.

(** [for (const x of xs) await body(x)]. *)
Fixpoint for_each {A} (xs : list A) (body : A -> M unit) : M unit :=
  match xs with
  | [] => ret tt
  | x :: xs' => body x;; for_each xs' body
  end.

(** [console.log] and [console.error] add a line to the trace. *)
Definition console_log (msg : jsstring) : M unit :=
  fun s => (inr tt, emit (EvLog msg) s).

Definition console_error (msg : jsstring) : M unit :=
  fun s => (inr tt, emit (EvError msg) s).

(** [this.tags]. *)
Definition this_tags : M (list jsstring) := fun s => (inr (tags s), s).

(** [vault.getMarkdownFiles()]: the files whose extension is [md]. *)
Definition getMarkdownFiles (s : state) : list TFile :=
  filter (fun f => extension f = str "md") (files s).

Definition this_markdown_files : M (list TFile) :=
  fun s => (inr (getMarkdownFiles s), s).

(** [metadataCache.getFileCache(file)]. *)
Definition getFileCache (s : state) (file : TFile) : option CachedMetadata :=
  metadata s !! path file.

(** [vault.read(file)]: rejected for an unreadable or missing file. *)
Definition vault_read (file : TFile) : M jsstring :=
  fun s =>
    let s' := emit (EvRead (path file)) s in
    if decide (path file ∈ unreadable s) then (inl (IOError (path file)), s')
    else match contents s !! path file with
         | Some c => (inr c, s')
         | None => (inl (IOError (path file)), s')
         end.

(** [vault.modify(file, data)]: rejected for an unwritable file. *)
Definition vault_modify (file : TFile) (data : jsstring) : M unit :=
  fun s =>
    let s' := emit (EvModify (path file) data) s in
    if decide (path file ∈ unwritable s) then (inl (IOError (path file)), s')
    else (inr tt, set_contents (<[path file := data]> (contents s')) s').

(** *** updateTags *)

(** The inner loop: each tag of one file is pushed unless already there. *)
Definition push_tags (acc : list jsstring) (ts : list TagCache)
  : list jsstring :=
  fold_left (fun acc t =>
               if negb (Array_includes acc (tag t)) then acc ++ [tag t]
               else acc) ts acc.

(** The outer loop over the markdown files. *)
Definition collect_tags (s : state) (fs : list TFile) (acc : list jsstring)
  : list jsstring :=
  fold_left (fun acc file =>
               match getFileCache s file with
               | Some cache =>
                   match cm_tags cache with
                   | Some ts => push_tags acc ts
                   | None => acc
                   end
               | None => acc
               end) fs acc.

(** [`Auto Tag Words: ${this.tags.length} Tags found`]. *)
Definition count_message (n : nat) : jsstring :=
  str "Auto Tag Words: " ++ str (NilEmpty.string_of_uint (Nat.to_uint n)) ++
  str " Tags found".

(** [updateTags()] (main.ts, lines 49 to 63): the registry is emptied and
    filled again from the cached tags of the markdown files. *)
Definition updateTags : M unit :=
  fun s =>
    let s0 := set_tags [] s in
    let s1 := set_tags (collect_tags s0 (getMarkdownFiles s0) (tags s0)) s0 in
    console_log (count_message (length (tags s1))) s1.

(** *** processFile, processAllFiles *)

(** [processFile(file)] (main.ts, lines 71 to 98). *)
Definition processFile (file : TFile) : M unit :=
  if negb (String_includes (extension file) (str "md")) then ret tt
  else
    try_catch
      (content ← vault_read file;
       ts ← this_tags;
       match RewriteEngine ts content with
       | None => throw SyntaxError
       | Some (newContent, changed) =>
           if changed then
             vault_modify file newContent;;
             console_log (str "Auto Tag Words: " ++ basename file ++
                          str " was tagged")
           else ret tt
       end)
      (fun _ =>
         console_error (str "Auto Tag Words: Dick stuck in blender " ++
                        basename file ++ str ":")).

(** [processAllFiles()] (main.ts, lines 101 to 109). *)
Definition processAllFiles : M unit :=
  console_log (str "Auto Tag Words: Snooping through your files...");;
  fs ← this_markdown_files;
  for_each fs processFile;;
  console_log (str "Auto Tag Words: No more snooping to be done").

(** *** convertWordsToTags *)

(** The editor: its value is read by [getValue] and replaced by
    [setValue]. *)
Record Editor : Type := mkEditor { getValue : jsstring }.

Definition setValue (e : Editor) (v : jsstring) : Editor := mkEditor v.

(** One turn of the loop of [convertWordsToTags]: [text] is the value read
    before the loop. *)
Definition convert_step (text : jsstring) (acc : Editor * bool)
    (tag : jsstring) : option (Editor * bool) :=
  let '(editor, changed) := acc in
  let word := toLowerCase (slice1 tag) in
  let escapedWord := escapeRegExp word in
  regex ← new_RegExp (tag_pattern escapedWord) (str "gi");
  let newText := replace text regex ("#" :: word) in
  if negb (jsstring_eqb newText text)
  then Some (setValue editor newText, true)
  else Some (editor, changed).

Fixpoint convert_loop (text : jsstring) (tags : list jsstring)
    (acc : Editor * bool) : option (Editor * bool) :=
  match tags with
  | [] => Some acc
  | tag :: tags' =>
      acc' ← convert_step text acc tag; convert_loop text tags' acc'
  end.

(** [convertWordsToTags(editor)] (main.ts, lines 111 to 126) with the
    registry [tags]: the editor after the call; [None] when [new RegExp]
    throws. *)
Definition convertWordsToTags (tags : list jsstring) (editor : Editor)
  : option Editor :=
  let text := getValue editor in
  fst <$> convert_loop text tags (editor, false).

(** *** onload: the command, the event handlers and their timers *)

(** The functions handed to [setTimeout]: [() => this.processFile(file)]
    and [() => this.convertWordsToTags(editor)].  An editor is named by a
    number; its object is looked up when the function runs. *)
Inductive callback : Type :=
| CallProcessFile (file : TFile)
| CallConvert (editor : nat).

(** A timer that was set and has neither fired nor been cleared: the
    handle [setTimeout] returned, the time it is due, the function. *)
Record timer : Type := mkTimer {
  handle : nat;
  due : nat;
  timer_callback : callback
}.

(** The plugin instance in its host: the application state with the
    registry, the field [this.timeout], the host's pending timers (oldest
    first), the next handle the host gives out, the time in milliseconds,
    and the open editors. *)
Record plugin : Type := mkPlugin {
  plugin_app : state;
  timeout : option nat;
  timers : list timer;
  next_handle : nat;
  now : nat;
  editors : gmap nat Editor
}.

Definition set_app (a : state) (p : plugin) : plugin :=
  mkPlugin a (timeout p) (timers p) (next_handle p) (now p) (editors p).

Definition set_timeout (h : option nat) (p : plugin) : plugin :=
  mkPlugin (plugin_app p) h (timers p) (next_handle p) (now p) (editors p).

Definition set_timers (ts : list timer) (p : plugin) : plugin :=
  mkPlugin (plugin_app p) (timeout p) ts (next_handle p) (now p) (editors p).

Definition set_now (t : nat) (p : plugin) : plugin :=
  mkPlugin (plugin_app p) (timeout p) (timers p) (next_handle p) t (editors p).

Definition set_editors (es : gmap nat Editor) (p : plugin) : plugin :=
  mkPlugin (plugin_app p) (timeout p) (timers p) (next_handle p) (now p) es.

(** [setTimeout(callback, delay)]: a new timer with a fresh handle, which
    is returned. *)
Definition setTimeout (cb : callback) (delay : nat) (p : plugin)
  : nat * plugin :=
  (next_handle p,
   mkPlugin (plugin_app p) (timeout p)
            (timers p ++ [mkTimer (next_handle p) (now p + delay) cb])
            (S (next_handle p)) (now p) (editors p)).

(** [clearTimeout(handle)]: the timer with that handle, if it is still
    pending, is dropped. *)
Definition clearTimeout (h : nat) (p : plugin) : plugin :=
  set_timers (filter (fun t => handle t <> h) (timers p)) p.

(** The handler of ['editor-change'] (main.ts, lines 41 to 44). *)
Definition on_editor_change (editor : nat) (p : plugin) : plugin :=
  let p1 := match timeout p with
            | Some h => clearTimeout h p
            | None => p
            end in
  let '(h, p2) := setTimeout (CallConvert editor) 800 p1 in
  set_timeout (Some h) p2.

(** The handler of the vault's ['modify'] (main.ts, lines 31 to 33). *)
Definition on_modify (file : TFile) (p : plugin) : plugin :=
  (setTimeout (CallProcessFile file) 1000 p).2.

(** The handler of the metadata cache's ['changed'] (main.ts, lines 24 to
    26). *)
Definition on_metadata_changed (p : plugin) : plugin :=
  set_app (updateTags (plugin_app p)).2 p.

(** The callback of the command [auto-tag-scan-all] (main.ts, lines 15 to
    18). *)
Definition scan_command (p : plugin) : plugin :=
  set_app ((console_log (str "Auto Tag Words: Scan started...");;
            processAllFiles) (plugin_app p)).2 p.

(** [onload()] (main.ts, lines 8 to 46): the registry is built and all
    files are scanned; the command and the three handlers it registers are
    the definitions above. *)
Definition onload (p : plugin) : plugin :=
  set_app ((console_log (str "Auto Tag Words: Plugin started");;
            updateTags;;
            processAllFiles) (plugin_app p)).2 p.

(** A timer's function runs.  [convertWordsToTags] works on the editor as
    it is then; an editor that is gone, or a thrown exception, leaves the
    plugin as it was. *)
Definition call (cb : callback) (p : plugin) : plugin :=
  match cb with
  | CallProcessFile file => set_app (processFile file (plugin_app p)).2 p
  | CallConvert editor =>
      match editors p !! editor with
      | Some e =>
          match convertWordsToTags (tags (plugin_app p)) e with
          | Some e' => set_editors (<[editor := e']> (editors p)) p
          | None => p
          end
      | None => p
      end
  end.

(** The pending timer that is due first; of two due at the same time, the
    one set first. *)
Fixpoint earliest (ts : list timer) : option timer :=
  match ts with
  | [] => None
  | t :: ts' =>
      match earliest ts' with
      | Some u => if Nat.ltb (due u) (due t) then Some u else Some t
      | None => Some t
      end
  end.

(** The host fires a timer: it leaves the pending timers, the time moves
    to when it was due, its function runs. *)
Definition fire (t : timer) (p : plugin) : plugin :=
  call (timer_callback t)
       (set_now (Nat.max (now p) (due t))
          (set_timers (filter (fun u => handle u <> handle t) (timers p)) p)).

(** The timers due up to the time [until] fire, in the order they are
    due.  [fuel] bounds how many fire. *)
Fixpoint run_until (fuel : nat) (until : nat) (p : plugin) : plugin :=
  match fuel with
  | 0 => p
  | S fuel' =>
      match earliest (timers p) with
      | Some t =>
          if Nat.leb (due t) until then run_until fuel' until (fire t p)
          else p
      | None => p
      end
  end.

(** What happens to the plugin once loaded: an editor changes, a file is
    modified, the metadata cache changes, the command is run, or time
    passes. *)
Inductive input : Type :=
| EditorChange (editor : nat)
| Modify (file : TFile)
| MetadataChanged
| ScanCommand
| Wait (ms : nat).

Definition react (p : plugin) (i : input) : plugin :=
  match i with
  | EditorChange editor => on_editor_change editor p
  | Modify file => on_modify file p
  | MetadataChanged => on_metadata_changed p
  | ScanCommand => scan_command p
  | Wait ms =>
      set_now (now p + ms)
              (run_until (length (timers p)) (now p + ms) p)
  end.

(** The plugin before [onload]: the field initialisers [tags = []] and
    [timeout = null], no timer pending. *)
Definition new_plugin (a : state) (es : gmap nat Editor) : plugin :=
  mkPlugin (set_tags [] a) None [] 1 0 es.

(** * Notions used in the statements *)

(** What [escapeRegExp] does to one character. *)
Definition is_special (c : ascii) : bool :=
  existsb (fun x => Ascii.eqb x c) (str ".*+?^${}()|[]\").

Definition escape_char (c : ascii) : jsstring :=
  if is_special c then ["\"; c] else [c].

(** The rule of a tag with bare word [word]:
    not preceded by [#], word boundary, the word, word boundary. *)
Definition tag_rule (word : jsstring) : RegExp :=
  mkRegExp (NegLookbehind ["#"] :: WordBoundary :: map Lit word ++ [WordBoundary])
           true true.

(** The character before the position is [#]. *)
Definition hash_at (before : jsstring) : bool :=
  match before with
  | [] => false
  | c :: _ => Ascii.eqb "#" c
  end.

(** Equality of strings up to case. *)
Fixpoint ci_eqb (w r : jsstring) : bool :=
  match w, r with
  | [], [] => true
  | c :: w', x :: r' => char_eq true c x && ci_eqb w' r'
  | _, _ => false
  end.

(** The longest prefix of word characters, and what follows it. *)
Fixpoint run (a : jsstring) : jsstring :=
  match a with
  | [] => []
  | c :: a' => if is_word c then c :: run a' else []
  end.

Fixpoint after_run (a : jsstring) : jsstring :=
  match a with
  | [] => []
  | c :: a' => if is_word c then after_run a' else a
  end.

(** The matcher of the rule of the word [w], and of its literals followed
    by the closing word boundary. *)
Definition word_match (w before after : jsstring)
  : option (jsstring * jsstring) :=
  match_terms (ignoreCase (tag_rule w)) (terms (tag_rule w)) before after.

Definition match_lits (w before after : jsstring)
  : option (jsstring * jsstring) :=
  match_terms true (map Lit w ++ [WordBoundary]) before after.

(** The rule matches nowhere in [after], read with [before] on its left. *)
Definition quiet (re : RegExp) (before after : jsstring) : Prop :=
  forall a1 a2, after = a1 ++ a2 ->
    match_terms (ignoreCase re) (terms re) (rev a1 ++ before) a2 = None.

(** The bare word of a tag, as each turn of the loop derives it. *)
Definition bare_word (tag : jsstring) : jsstring := toLowerCase (slice1 tag).

(** The replacement of one tag on a text. *)
Definition rewrite_tag (tag : jsstring) (text : jsstring) : jsstring :=
  replace text (tag_rule (bare_word tag)) ("#" :: bare_word tag).

(** The text after a pass, and the flag after a pass. *)
Definition pass_text (tags : list jsstring) (text : jsstring) : jsstring :=
  fold_left (fun text tag => rewrite_tag tag text) tags text.

Fixpoint pass_flag (tags : list jsstring) (text : jsstring) (changed : bool)
  : bool :=
  match tags with
  | [] => changed
  | tag :: tags' =>
      pass_flag tags' (rewrite_tag tag text)
                (changed || negb (jsstring_eqb (rewrite_tag tag text) text))
  end.

(** The bare word of the tag is not empty and has only letters, digits and
    underscores. *)
Definition word_tag (tag : jsstring) : bool :=
  match bare_word tag with
  | [] => false
  | w => forallb is_word w
  end.

(** [w] is a prefix of [s] up to case. *)
Fixpoint ci_prefix (w s : jsstring) : bool :=
  match w, s with
  | [], _ => true
  | _ :: _, [] => false
  | c :: w', x :: s' => char_eq true c x && ci_prefix w' s'
  end.

(** Some occurrence of [w], in any casing, in [s] is not immediately
    preceded by [#]; [prev_hash] tells whether [#] stands before [s]. *)
Fixpoint occurs_untagged (w : jsstring) (prev_hash : bool) (s : jsstring)
  : bool :=
  (ci_prefix w s && negb prev_hash) ||
  match s with
  | [] => false
  | c :: s' => occurs_untagged w (Ascii.eqb "#" c) s'
  end.

(** [pre] ends with a word character; [pre] ends with [#]. *)
Definition ends_with_word (pre : jsstring) : bool := word_at (rev pre).

Definition ends_with_hash (pre : jsstring) : bool := hash_at (rev pre).

(** [post] does not start with a word character. *)
Definition open_start (post : jsstring) : bool := negb (word_at post).

Definition no_word_char (s : jsstring) : bool :=
  forallb (fun c => negb (is_word c)) s.

(** The tags of the cached metadata of the files [fs]. *)
Definition tagged_in (s : state) (fs : list TFile) (x : jsstring) : Prop :=
  exists file cache ts tc,
    file ∈ fs /\ getFileCache s file = Some cache /\
    cm_tags cache = Some ts /\ tc ∈ ts /\ tag tc = x.

(** Two notes with the tags [{#a, #b}] and [{#b, #c}], and any registry
    [prior] and any contents. *)
Definition two_notes (prior : list jsstring)
    (contents : gmap jsstring jsstring) : state :=
  mkState [mkTFile (str "one.md") (str "one") (str "md");
           mkTFile (str "two.md") (str "two") (str "md")]
          contents ∅ ∅
          (<[str "one.md" :=
               mkCache (Some [mkTagCache (str "#a"); mkTagCache (str "#b")])]>
           (<[str "two.md" :=
               mkCache (Some [mkTagCache (str "#b"); mkTagCache (str "#c")])]>
            ∅))
          prior [].

(** The lines [processFile] logs for a file. *)
Definition tagged_message (file : TFile) : jsstring :=
  str "Auto Tag Words: " ++ basename file ++ str " was tagged".

Definition error_message (file : TFile) : jsstring :=
  str "Auto Tag Words: Dick stuck in blender " ++ basename file ++ str ":".

(** The read of the file is rejected, or its content is rewritten and the
    write is rejected. *)
Definition io_fails (file : TFile) (s : state) : Prop :=
  path file ∈ unreadable s \/ contents s !! path file = None \/
  exists c, contents s !! path file = Some c /\
            pass_flag (tags s) c false = true /\ path file ∈ unwritable s.

(** Three notes A, B and C; the write of B is rejected. *)
Definition three_notes : state :=
  mkState [mkTFile (str "A.md") (str "A") (str "md");
           mkTFile (str "B.md") (str "B") (str "md");
           mkTFile (str "C.md") (str "C") (str "md")]
          (<[str "A.md" := str "my Project"]>
           (<[str "B.md" := str "project b"]>
            (<[str "C.md" := str "the project, again"]> ∅)))
          ∅ {[str "B.md"]} ∅ [str "#project"] [].

(** A vault with the single file [run.cmd], and the registry [#project]. *)
Definition cmd_file : TFile := mkTFile (str "run.cmd") (str "run") (str "cmd").

Definition cmd_vault : state :=
  mkState [cmd_file] {[str "run.cmd" := str "start project"]} ∅ ∅ ∅
          [str "#project"] [].

(** Undoing [escapeRegExp]: a backslash is dropped and the character after
    it kept. *)
Fixpoint unescape (s : jsstring) : jsstring :=
  match s with
  | [] => []
  | "\" :: c :: s' => c :: unescape s'
  | c :: s' => c :: unescape s'
  end.

(** A text without its [#] characters and in lower case. *)
Definition skeleton (s : jsstring) : jsstring :=
  toLowerCase (List.filter (fun c => negb (Ascii.eqb "#" c)) s).

(** The bare word of the tag has no dollar sign. *)
Definition dollar_free (tag : jsstring) : bool :=
  forallb (fun c => negb (Ascii.eqb c "$")) (bare_word tag).

(** A tag and a text with letters of the Latin-1 Supplement: the tag
    [#M\u00DCNCHEN], with U+00DC the capital letter u with diaeresis, and the
    text [M\u00FCnchen ist], with U+00FC the small letter. *)
Definition tag_MUNCHEN : jsstring :=
  str "#M" ++ [ascii_of_nat 220] ++ str "NCHEN".

Definition text_Munchen : jsstring :=
  str "M" ++ [ascii_of_nat 252] ++ str "nchen ist".

(** The literals of [w] read at the start of [a], up to case: the text
    they match and what follows it. *)
Fixpoint strip (w a : jsstring) : option (jsstring * jsstring) :=
  match w, a with
  | [], _ => Some ([], a)
  | _ :: _, [] => None
  | c :: w', x :: a' =>
      if char_eq true c x
      then '(m, rest) ← strip w' a'; Some (x :: m, rest)
      else None
  end.

(** Two characters are equal up to case. *)
Definition ci (c x : ascii) : Prop := char_eq true c x = true.

(** An occurrence of [w] can start inside an occurrence of [w], at the
    place where [u] starts in [w = w1 ++ u] ([w1r] is [w1] in reverse):
    [u] is a prefix of [w] up to case, a word boundary stands between [w1]
    and [u], and a word boundary stands between the end of [w] and what
    follows [u] in [w]. *)
Definition overlap_at (w w1r u : jsstring) : bool :=
  xorb (word_at w1r) (word_at u) && ci_prefix u w &&
  xorb (word_at (rev w)) (word_at (drop (length u) w)).

Fixpoint overlaps (w w1r u : jsstring) : bool :=
  match u with
  | [] => false
  | c :: u' =>
      match w1r with
      | [] => false
      | _ :: _ => overlap_at w w1r u
      end || overlaps w (c :: w1r) u'
  end.

(** Two occurrences of the bare word [w], each between word boundaries,
    can overlap. *)
Definition self_overlap (w : jsstring) : bool := overlaps w [] w.

Definition hash_free (w : jsstring) : bool :=
  forallb (fun c => negb (Ascii.eqb "#" c)) w.

(** The bare word of the tag is not empty, has neither [#] nor [$], and
    cannot overlap itself. *)
Definition stable_tag (tag : jsstring) : bool :=
  negb (jsstring_eqb (bare_word tag) []) && hash_free (bare_word tag) &&
  dollar_free tag && negb (self_overlap (bare_word tag)).

(** The host calls made between the state [s] and the later state [s']. *)
Definition new_events (s s' : state) : list event :=
  drop (length (trace s)) (trace s').

Definition is_modify (e : event) : bool :=
  match e with
  | EvModify _ _ => true
  | _ => false
  end.

(** [processFile] goes past its guard for the file, and neither the read
    nor the write of the file is rejected. *)
Definition file_ok (file : TFile) (s : state) : bool :=
  String_includes (extension file) (str "md") &&
  bool_decide (path file ∉ unreadable s) &&
  bool_decide (path file ∉ unwritable s).

Definition is_convert (t : timer) : bool :=
  match timer_callback t with
  | CallConvert _ => true
  | CallProcessFile _ => false
  end.

(** The pending conversions, and the pending calls of [processFile]. *)
Definition pending_converts (p : plugin) : list timer :=
  filter (fun t => is_convert t = true) (timers p).

Definition pending_process (p : plugin) : list callback :=
  timer_callback <$> filter (fun t => is_convert t = false) (timers p).

(** What the debounce keeps true: the pending timers have distinct handles
    below the next one, as is the handle in [this.timeout], and a pending
    timer is a conversion exactly when [this.timeout] names it. *)
Definition debounced (p : plugin) : Prop :=
  NoDup (handle <$> timers p) /\
  Forall (fun t => handle t < next_handle p) (timers p) /\
  (forall h, timeout p = Some h -> h < next_handle p) /\
  Forall (fun t => is_convert t = true <-> timeout p = Some (handle t))
         (timers p).


(** The files of the [Modify] inputs, in order. *)
Definition modified (inputs : list input) : list callback :=
  flat_map (fun i => match i with
                     | Modify file => [CallProcessFile file]
                     | _ => []
                     end) inputs.

Definition is_wait (i : input) : bool :=
  match i with
  | Wait _ => true
  | _ => false
  end.

(** The tags cached for the markdown files, in the order of the files and
    then of each file's tags, with their repetitions. *)
Definition cached_tags (s : state) : list jsstring :=
  flat_map (fun file =>
              match getFileCache s file with
              | Some cache =>
                  match cm_tags cache with
                  | Some ts => tag <$> ts
                  | None => []
                  end
              | None => []
              end) (getMarkdownFiles s).

(** A list without the repetitions of its items, each kept where it comes
    first. *)
Definition first_occurrences (l : list jsstring) : list jsstring :=
  reverse (remove_dups (reverse l)).



(** * Properties *)

(** ** Characters *)

Section Characters.

Ltac by_cases c := destruct c as [[] [] [] [] [] [] [] []]; reflexivity.

Lemma is_word_canonicalize c : is_word (canonicalize c) = is_word c.
Proof. by_cases c. Qed.

Lemma is_word_lower_char c : is_word (lower_char c) = is_word c.
Proof. by_cases c. Qed.

Lemma canonicalize_lower_char c : canonicalize (lower_char c) = canonicalize c.
Proof. by_cases c. Qed.

Lemma canonicalize_hash c :
  Ascii.eqb (canonicalize "#") (canonicalize c) = Ascii.eqb "#" c.
Proof. by_cases c. Qed.

Lemma is_word_not_hash c : is_word c = true -> Ascii.eqb "#" c = false.
Proof.
  assert (H : implb (is_word c) (negb (Ascii.eqb "#" c)) = true) by by_cases c.
  intros Hw. rewrite Hw in H. simpl in H. by apply negb_true_iff.
Qed.

Lemma is_word_not_dollar c : is_word c = true -> c <> "$".
Proof.
  assert (H : implb (is_word c) (negb (Ascii.eqb c "$")) = true) by by_cases c.
  intros Hw ->. by rewrite Hw in H.
Qed.

Lemma char_eq_is_word a b : char_eq true a b = true -> is_word a = is_word b.
Proof.
  unfold char_eq. intros H%Ascii.eqb_eq.
  by rewrite <- (is_word_canonicalize a), H, is_word_canonicalize.
Qed.

Lemma char_eq_lower_char c : char_eq true (lower_char c) c = true.
Proof. unfold char_eq. rewrite canonicalize_lower_char. apply Ascii.eqb_refl. Qed.

End Characters.

Lemma jsstring_eqb_eq s t : jsstring_eqb s t = true <-> s = t.
Proof.
  revert t. induction s as [|a s IH]; intros [|b t]; simpl; try easy.
  rewrite andb_true_iff, Ascii.eqb_eq, IH. split.
  - by intros [-> ->].
  - intros [= -> ->]. done.
Qed.

Lemma jsstring_eqb_refl s : jsstring_eqb s s = true.
Proof. by apply jsstring_eqb_eq. Qed.

Lemma jsstring_eqb_neq s t : jsstring_eqb s t = false <-> s <> t.
Proof.
  rewrite <- jsstring_eqb_eq. by destruct (jsstring_eqb s t).
Qed.

(** ** The pattern of a tag always compiles *)

Lemma escape_regex_compiles :
  new_RegExp escape_pattern (str "g") = Some escape_regex.
Proof. reflexivity. Qed.

Lemma escape_from fuel before s :
  length s < fuel ->
  replace_from fuel escape_regex (str "\$&") before s = flat_map escape_char s.
Proof.
  revert fuel before. induction s as [|c s IH]; intros [|fuel] before Hlen;
    simpl in Hlen; try lia; [reflexivity|].
  cbn [replace_from escape_regex terms ignoreCase global match_terms].
  change (existsb (fun c0 => char_eq false c0 c) (str ".*+?^${}()|[]\"))
    with (is_special c).
  cbn [flat_map]. unfold escape_char at 1.
  destruct (is_special c); cbn.
  - f_equal. f_equal. apply IH. lia.
  - f_equal. apply IH. lia.
Qed.

Lemma escapeRegExp_flat_map s : escapeRegExp s = flat_map escape_char s.
Proof. apply escape_from. lia. Qed.

Lemma parse_escape_char c rest ts :
  parse Top rest = Some ts ->
  parse Top (escape_char c ++ rest) = Some (Lit c :: ts).
Proof.
  intros H. unfold escape_char.
  destruct c as [[] [] [] [] [] [] [] []]; cbn; by rewrite H.
Qed.

Lemma parse_escaped word rest ts :
  parse Top rest = Some ts ->
  parse Top (flat_map escape_char word ++ rest) = Some (map Lit word ++ ts).
Proof.
  intros H. induction word as [|c word IH]; [done|].
  cbn [flat_map map]. rewrite <- app_assoc. by apply parse_escape_char.
Qed.

Lemma tag_pattern_compiles word :
  new_RegExp (tag_pattern (escapeRegExp word)) (str "gi") = Some (tag_rule word).
Proof.
  rewrite escapeRegExp_flat_map. unfold new_RegExp, tag_pattern.
  change (parse Top (str "(?<!#)\b" ++ flat_map escape_char word ++ str "\b"))
    with (cons (NegLookbehind ["#"]) <$>
            (cons WordBoundary <$>
               parse Top (flat_map escape_char word ++ str "\b"))).
  by rewrite (parse_escaped word (str "\b") [WordBoundary]).
Qed.

(** ** The matcher on the rule of a tag *)

Lemma behind_hash before : behind true (rev ["#"]) before = hash_at before.
Proof.
  destruct before as [|c before]; [done|].
  cbn [rev app behind hash_at char_eq]. rewrite canonicalize_hash.
  apply andb_true_r.
Qed.

Lemma word_match_unfold w before after :
  word_match w before after =
  if hash_at before then None
  else if xorb (word_at before) (word_at after)
       then match_lits w before after else None.
Proof.
  unfold word_match, match_lits.
  cbn [tag_rule terms ignoreCase match_terms]. by rewrite behind_hash.
Qed.

Lemma run_split a : a = run a ++ after_run a.
Proof.
  induction a as [|c a IH]; [done|]. simpl.
  destruct (is_word c); [|done]. simpl. by f_equal.
Qed.

Lemma run_is_word a : forallb is_word (run a) = true.
Proof.
  induction a as [|c a IH]; [done|]. simpl.
  destruct (is_word c) eqn:E; [|done]. simpl. by rewrite E.
Qed.

Lemma after_run_not_word a : word_at (after_run a) = false.
Proof.
  induction a as [|c a IH]; [done|]. simpl.
  destruct (is_word c) eqn:E; [done|]. simpl. done.
Qed.

Lemma run_app r X :
  forallb is_word r = true -> word_at X = false -> run (r ++ X) = r.
Proof.
  intros Hr HX. induction r as [|c r IH]; simpl in *.
  - destruct X as [|x X]; [done|]. simpl in *. by rewrite HX.
  - apply andb_true_iff in Hr as [-> Hr]. f_equal. auto.
Qed.

Lemma after_run_app r X :
  forallb is_word r = true -> word_at X = false -> after_run (r ++ X) = X.
Proof.
  intros Hr HX. induction r as [|c r IH]; simpl in *.
  - destruct X as [|x X]; [done|]. simpl in *. by rewrite HX.
  - apply andb_true_iff in Hr as [-> Hr]. auto.
Qed.

Lemma ci_eqb_length w r : ci_eqb w r = true -> length w = length r.
Proof.
  revert r. induction w as [|c w IH]; intros [|x r]; simpl; try easy.
  intros [_ H]%andb_true_iff. f_equal. auto.
Qed.

Lemma ci_eqb_toLowerCase s : ci_eqb (toLowerCase s) s = true.
Proof.
  induction s as [|c s IH]; [done|]. simpl.
  rewrite IH, andb_true_r. apply char_eq_lower_char.
Qed.

(** Inside a run of word characters the literals of a word made of word
    characters match exactly when the run is the word, up to case. *)
Lemma match_lits_run w before r X :
  forallb is_word w = true -> word_at before = true ->
  forallb is_word r = true -> word_at X = false ->
  match_lits w before (r ++ X) = if ci_eqb w r then Some (r, X) else None.
Proof.
  unfold match_lits. revert before r.
  induction w as [|c w IH]; intros before r Hw Hb Hr HX.
  - cbn [map app match_terms ci_eqb]. rewrite Hb.
    destruct r as [|x r]; cbn [app].
    + by rewrite HX.
    + simpl in Hr. apply andb_true_iff in Hr as [Hx _]. simpl. by rewrite Hx.
  - simpl in Hw. apply andb_true_iff in Hw as [Hc Hw].
    cbn [map app match_terms ci_eqb].
    destruct r as [|x r]; cbn [app].
    + destruct X as [|x X]; [done|]. simpl in HX.
      destruct (char_eq true c x) eqn:E; [|done].
      apply char_eq_is_word in E. congruence.
    + simpl in Hr. apply andb_true_iff in Hr as [Hx Hr].
      destruct (char_eq true c x) eqn:E; [|done]. cbn [andb].
      rewrite IH by done. by destruct (ci_eqb w r).
Qed.

(** The rule of a nonempty word of word characters matches at a position
    exactly when the run that starts there is the word up to case, and the
    character before the position is neither [#] nor a word character. *)
Lemma word_match_run w before after :
  forallb is_word w = true -> w <> [] ->
  word_match w before after =
  if negb (hash_at before) && negb (word_at before) && ci_eqb w (run after)
  then Some (run after, after_run after) else None.
Proof.
  intros Hw Hne. rewrite word_match_unfold.
  destruct (hash_at before); [done|]. cbn [negb andb].
  destruct w as [|c w]; [done|]. clear Hne.
  simpl in Hw. apply andb_true_iff in Hw as [Hc Hw].
  pose proof (run_split after) as Hsplit.
  pose proof (run_is_word after) as Hr.
  pose proof (after_run_not_word after) as HX.
  set (r := run after) in *. set (X := after_run after) in *.
  clearbody r X. subst after.
  destruct r as [|x r]; cbn [app ci_eqb].
  - rewrite andb_false_r, HX, xorb_false_r.
    destruct (word_at before); [|done].
    unfold match_lits. cbn [map app match_terms].
    destruct X as [|y X]; [done|]. simpl in HX.
    destruct (char_eq true c y) eqn:E; [|done].
    apply char_eq_is_word in E. congruence.
  - simpl in Hr. apply andb_true_iff in Hr as [Hx Hr].
    cbn [word_at]. rewrite Hx, xorb_true_r.
    destruct (word_at before); [done|]. cbn [negb andb].
    unfold match_lits. cbn [map app match_terms].
    destruct (char_eq true c x) eqn:E; [|done]. cbn [andb].
    fold (match_lits w (x :: before) (r ++ X)).
    rewrite match_lits_run by done. by destruct (ci_eqb w r).
Qed.

(** ** The replacement loop *)

Lemma match_terms_app ic ts before after m rest :
  match_terms ic ts before after = Some (m, rest) -> after = m ++ rest.
Proof.
  revert before after m rest.
  induction ts as [|t ts IH]; intros before after m rest; cbn [match_terms].
  - by intros [= <- <-].
  - destruct t as [cs| |c|cs].
    + destruct (behind ic (rev cs) before); [done|]. apply IH.
    + destruct (xorb _ _); [|done]. apply IH.
    + destruct after as [|x after]; [done|].
      destruct (char_eq ic c x); [|done].
      destruct (match_terms ic ts (x :: before) after) as [[m' r']|] eqn:E;
        [|done].
      cbn. intros [= <- <-]. cbn. f_equal. by apply (IH _ _ _ _ E).
    + destruct after as [|x after]; [done|].
      destruct (existsb _ cs); [|done].
      destruct (match_terms ic ts (x :: before) after) as [[m' r']|] eqn:E;
        [|done].
      cbn. intros [= <- <-]. cbn. f_equal. by apply (IH _ _ _ _ E).
Qed.

(** The loop ends within [length after + 1] turns: more fuel changes
    nothing. *)
Lemma replace_from_fuel re template f1 f2 before after :
  length after < f1 -> length after < f2 ->
  replace_from f1 re template before after =
  replace_from f2 re template before after.
Proof.
  revert f2 before after.
  induction f1 as [|f1 IH]; intros [|f2] before after H1 H2; try lia.
  cbn [replace_from].
  destruct (match_terms _ _ before after) as [[m rest]|] eqn:E.
  - apply match_terms_app in E as ->. f_equal.
    destruct (global re); [|done].
    destruct m as [|x m]; cbn [app] in *.
    + destruct rest as [|c rest]; [done|]. f_equal. apply IH; simpl in *; lia.
    + apply IH; simpl in *; rewrite ?length_app in *; lia.
  - destruct after as [|c after]; [done|]. f_equal. apply IH; simpl in *; lia.
Qed.

Lemma quiet_here re before after :
  quiet re before after ->
  match_terms (ignoreCase re) (terms re) before after = None.
Proof. intros H. by apply (H [] after). Qed.

Lemma quiet_app re before a1 a2 :
  quiet re before (a1 ++ a2) -> quiet re (rev a1 ++ before) a2.
Proof.
  intros H b1 b2 ->. rewrite app_assoc, <- rev_app_distr.
  apply H. by rewrite app_assoc.
Qed.

Lemma quiet_tail re before c after :
  quiet re before (c :: after) -> quiet re (c :: before) after.
Proof. intros H. by apply (quiet_app re before [c] after). Qed.

Lemma quiet_nil re before :
  match_terms (ignoreCase re) (terms re) before [] = None ->
  quiet re before [].
Proof. intros H a1 a2 E. symmetry in E. by apply app_eq_nil in E as [-> ->]. Qed.

Lemma quiet_cons re before c after :
  match_terms (ignoreCase re) (terms re) before (c :: after) = None ->
  quiet re (c :: before) after ->
  quiet re before (c :: after).
Proof.
  intros H0 H a1 a2 E. destruct a1 as [|x a1]; cbn [app] in E.
  - by subst a2.
  - injection E as <- ->. cbn [rev]. rewrite <- app_assoc. by apply H.
Qed.

(** Where the rule matches nowhere, the replacement returns its input. *)
Lemma replace_from_quiet re template fuel before after :
  quiet re before after ->
  replace_from fuel re template before after = after.
Proof.
  revert before after. induction fuel as [|fuel IH]; intros before after H;
    [done|].
  cbn [replace_from]. rewrite (quiet_here _ _ _ H).
  destruct after as [|c after]; [done|]. f_equal.
  apply IH. by apply quiet_tail.
Qed.

Lemma replace_quiet re template s :
  quiet re [] s -> replace s re template = s.
Proof. apply replace_from_quiet. Qed.

(** A template without a dollar sign stands for itself. *)
Lemma substitution_plain template m before rest :
  Forall (fun c => c <> "$") template ->
  substitution template m before rest = template.
Proof.
  induction 1 as [|c t Hc _ IH]; [done|].
  cbn [substitution].
  destruct c as [[] [] [] [] [] [] [] []]; try congruence; try (f_equal; exact IH).
Qed.

(** ** Tags whose bare word is made of word characters *)

Lemma rev_word_head r before :
  forallb is_word r = true -> r <> [] ->
  hash_at (rev r ++ before) = false /\ word_at (rev r ++ before) = true.
Proof.
  intros Hr Hne. destruct (rev r) as [|x t] eqn:E.
  - apply (f_equal (@rev ascii)) in E. rewrite rev_involutive in E. done.
  - assert (Hx : is_word x = true).
    { rewrite forallb_forall in Hr. apply Hr, in_rev. rewrite E. by left. }
    cbn. split; [by apply is_word_not_hash | done].
Qed.

Lemma word_not_dollar w :
  forallb is_word w = true -> Forall (fun c => c <> "$") ("#" :: w).
Proof.
  intros Hw. constructor; [done|].
  apply Forall_forall. intros c Hc. apply is_word_not_dollar.
  rewrite forallb_forall in Hw. by apply Hw, list_elem_of_In.
Qed.

Section WordTags.

Variable w : jsstring.
Hypothesis Hw : forallb is_word w = true.
Hypothesis Hne : w <> [].

(** One turn of the loop, for the rule and the template of the tag. *)
Lemma replace_from_word fuel before after :
  replace_from (S fuel) (tag_rule w) ("#" :: w) before after =
  if negb (hash_at before) && negb (word_at before) && ci_eqb w (run after)
  then "#" :: w ++
       replace_from fuel (tag_rule w) ("#" :: w)
                    (rev (run after) ++ before) (after_run after)
  else match after with
       | [] => []
       | c :: after' =>
           c :: replace_from fuel (tag_rule w) ("#" :: w) (c :: before) after'
       end.
Proof.
  cbn [replace_from]. fold (word_match w before after).
  rewrite word_match_run by done.
  destruct (negb (hash_at before) && negb (word_at before) &&
            ci_eqb w (run after)) eqn:E; [|done].
  rewrite substitution_plain by by apply word_not_dollar.
  cbn [global tag_rule app]. f_equal. f_equal.
  apply andb_true_iff in E as [_ E]. apply ci_eqb_length in E.
  destruct (run after); [|done]. by destruct w.
Qed.

(** Started inside a run of word characters, the loop copies the run. *)
Lemma run_replace_from fuel before after :
  length after < fuel -> word_at before = true ->
  run (replace_from fuel (tag_rule w) ("#" :: w) before after) = run after.
Proof.
  revert fuel before. induction after as [|c after IH];
    intros [|fuel] before Hlen Hb; simpl in Hlen; try lia;
    rewrite replace_from_word; rewrite Hb, andb_false_r; cbn [andb];
    [done|].
  cbn [run]. destruct (is_word c) eqn:Ec; [|done]. f_equal.
  apply IH; [lia | done].
Qed.

Section Other.

Variable w' : jsstring.
Hypothesis Hw' : forallb is_word w' = true.
Hypothesis Hne' : w' <> [].

Lemma word_match_None before after :
  negb (hash_at before) && negb (word_at before) && ci_eqb w' (run after)
    = false <->
  match_terms (ignoreCase (tag_rule w')) (terms (tag_rule w')) before after
    = None.
Proof.
  fold (word_match w' before after). rewrite word_match_run by done.
  by destruct (_ && _ && _).
Qed.

Lemma quiet_run_inside r X before :
  forallb is_word r = true -> word_at before = true ->
  quiet (tag_rule w') (rev r ++ before) X ->
  quiet (tag_rule w') before (r ++ X).
Proof.
  revert before. induction r as [|x r IH]; intros before Hr Hb H; [done|].
  simpl in Hr. apply andb_true_iff in Hr as [Hx Hr]. cbn [app].
  apply quiet_cons.
  - apply word_match_None. by rewrite Hb, andb_false_r.
  - apply IH; [done..|]. cbn [rev] in H. by rewrite <- app_assoc in H.
Qed.

Lemma quiet_tagged before X :
  quiet (tag_rule w') (rev w ++ "#" :: before) X ->
  quiet (tag_rule w') before ("#" :: w ++ X).
Proof.
  intros H. apply quiet_cons.
  - apply word_match_None. cbn [run]. change (is_word "#") with false.
    cbn iota. destruct w'; [done|]. cbn [ci_eqb]. apply andb_false_r.
  - destruct w as [|c w0]; [done|]. cbn [app]. apply quiet_cons.
    + apply word_match_None. done.
    + simpl in Hw. apply andb_true_iff in Hw as [Hc Hw0].
      apply quiet_run_inside; [done..|].
      cbn [rev] in H. by rewrite <- app_assoc in H.
Qed.

(** The replacement for [w] leaves no match of [w], and creates no match
    of another word [w'] that had none: the text it returns, read in a
    context that agrees with the input's on the character before, is
    quiet for [w']. *)
Lemma replace_from_keeps_quiet fuel after before before' :
  length after < fuel ->
  hash_at before = hash_at before' -> word_at before = word_at before' ->
  w' = w \/ quiet (tag_rule w') before after ->
  quiet (tag_rule w') before'
        (replace_from fuel (tag_rule w) ("#" :: w) before after).
Proof.
  revert after before before'.
  induction fuel as [|fuel IH]; intros after before before' Hlen Hh Hwd Hq;
    [lia|].
  rewrite replace_from_word.
  destruct (negb (hash_at before) && negb (word_at before) &&
            ci_eqb w (run after)) eqn:Ec.
  - assert (Hrun : run after <> []).
    { apply andb_true_iff in Ec as [_ Ec]. apply ci_eqb_length in Ec.
      destruct (run after); [|done]. by destruct w. }
    apply quiet_tagged.
    destruct (rev_word_head (run after) before (run_is_word after) Hrun)
      as [Hh1 Hw1].
    destruct (rev_word_head w ("#" :: before') Hw Hne) as [Hh2 Hw2].
    apply IH.
    + pose proof (f_equal length (run_split after)) as Hl.
      rewrite length_app in Hl. destruct (run after); [done|].
      simpl in Hl. lia.
    + congruence.
    + congruence.
    + destruct Hq as [Hq | Hq]; [by left | right].
      apply quiet_app. by rewrite <- run_split.
  - assert (Hhere : negb (hash_at before') && negb (word_at before') &&
                    ci_eqb w' (run after) = false).
    { rewrite <- Hh, <- Hwd. destruct Hq as [-> | Hq]; [done|].
      apply word_match_None. by apply quiet_here. }
    destruct after as [|c after].
    + apply quiet_nil. by apply word_match_None.
    + simpl in Hlen. apply quiet_cons.
      * apply word_match_None. etransitivity; [|exact Hhere]. f_equal.
        cbn [run]. destruct (is_word c) eqn:Ew; [|done]. do 2 f_equal.
        apply run_replace_from; [lia | done].
      * apply IH; [lia | done | done |].
        destruct Hq as [Hq | Hq]; [by left | right]. by apply quiet_tail.
Qed.

End Other.

End WordTags.

(** ** The rewrite pass never throws *)

Lemma rewrite_step_total text changed tag :
  rewrite_step (text, changed) tag =
  Some (rewrite_tag tag text,
        changed || negb (jsstring_eqb (rewrite_tag tag text) text)).
Proof.
  unfold rewrite_step. fold (bare_word tag).
  rewrite tag_pattern_compiles. cbn [mbind option_bind].
  fold (rewrite_tag tag text).
  destruct (jsstring_eqb (rewrite_tag tag text) text) eqn:E; cbn [negb].
  - apply jsstring_eqb_eq in E. rewrite E. by rewrite orb_false_r.
  - by rewrite orb_true_r.
Qed.

Lemma rewrite_loop_total tags text changed :
  rewrite_loop tags (text, changed) =
  Some (pass_text tags text, pass_flag tags text changed).
Proof.
  revert text changed. induction tags as [|tag tags IH]; intros text changed;
    [done|].
  cbn [rewrite_loop]. rewrite rewrite_step_total. cbn [mbind option_bind].
  apply IH.
Qed.

Lemma RewriteEngine_total tags text :
  RewriteEngine tags text =
  Some (pass_text tags text, pass_flag tags text false).
Proof. apply rewrite_loop_total. Qed.

(** A pass that reports no change returns its input. *)
Lemma pass_flag_false tags text :
  pass_flag tags text false = false -> pass_text tags text = text.
Proof.
  revert text. induction tags as [|tag tags IH]; intros text; [done|].
  cbn [pass_flag pass_text fold_left orb].
  destruct (jsstring_eqb (rewrite_tag tag text) text) eqn:E; cbn [negb].
  - apply jsstring_eqb_eq in E. rewrite E. apply IH.
  - intros H. exfalso. clear -H. revert H.
    generalize (rewrite_tag tag text). induction tags as [|t tags IH];
      intros x; [done|]. cbn [pass_flag orb]. apply IH.
Qed.

(** Where no tag's rule matches, the pass returns its input unchanged. *)
Lemma pass_quiet tags text changed :
  Forall (fun tag => quiet (tag_rule (bare_word tag)) [] text) tags ->
  pass_text tags text = text /\ pass_flag tags text changed = changed.
Proof.
  induction 1 as [|tag tags Hq _ IH]; [done|].
  cbn [pass_text pass_flag fold_left].
  assert (E : rewrite_tag tag text = text) by by apply replace_quiet.
  rewrite E, jsstring_eqb_refl, orb_false_r. exact IH.
Qed.

(** ** Idempotence for tags made of word characters *)

Lemma word_tag_spec tag :
  word_tag tag = true ->
  forallb is_word (bare_word tag) = true /\ bare_word tag <> [].
Proof. unfold word_tag. by destruct (bare_word tag). Qed.

Lemma rewrite_tag_quiet tag tag' text :
  word_tag tag = true -> word_tag tag' = true ->
  bare_word tag' = bare_word tag \/ quiet (tag_rule (bare_word tag')) [] text ->
  quiet (tag_rule (bare_word tag')) [] (rewrite_tag tag text).
Proof.
  intros [Hw Hne]%word_tag_spec [Hw' Hne']%word_tag_spec Hq.
  apply replace_from_keeps_quiet; auto.
Qed.

Lemma pass_text_keeps_quiet tags tag' text :
  Forall (fun tag => word_tag tag = true) tags -> word_tag tag' = true ->
  quiet (tag_rule (bare_word tag')) [] text ->
  quiet (tag_rule (bare_word tag')) [] (pass_text tags text).
Proof.
  intros Htags Htag'. revert text.
  induction Htags as [|tag tags Htag _ IH]; intros text Hq; [done|].
  cbn [pass_text fold_left]. apply IH. apply rewrite_tag_quiet; auto.
Qed.

Lemma pass_text_quiet tags text :
  Forall (fun tag => word_tag tag = true) tags ->
  Forall (fun tag => quiet (tag_rule (bare_word tag)) [] (pass_text tags text))
         tags.
Proof.
  intros Htags. revert text.
  induction Htags as [|tag tags Htag Htags IH]; intros text; [done|].
  cbn [pass_text fold_left]. constructor; [|apply IH].
  apply pass_text_keeps_quiet; [done..|].
  apply rewrite_tag_quiet; auto.
Qed.

(** ** Text that is already tagged *)

Lemma match_lits_prefix w before after :
  ci_prefix w after = false -> match_lits w before after = None.
Proof.
  unfold match_lits. revert before after.
  induction w as [|c w IH]; intros before after; [done|].
  cbn [map app match_terms ci_prefix].
  destruct after as [|x after]; [done|].
  destruct (char_eq true c x); [|done]. cbn [andb].
  intros H. by rewrite IH.
Qed.

(** The rule of a tag never matches right after [#], nor where the bare
    word does not stand. *)
Lemma word_match_tagged w before after :
  hash_at before = true \/ ci_prefix w after = false ->
  word_match w before after = None.
Proof.
  rewrite word_match_unfold. intros [-> | H]; [done|].
  destruct (hash_at before); [done|].
  destruct (xorb _ _); [|done]. by apply match_lits_prefix.
Qed.

Lemma occurs_untagged_quiet w before after :
  occurs_untagged w (hash_at before) after = false ->
  quiet (tag_rule w) before after.
Proof.
  revert before. induction after as [|c after IH]; intros before;
    cbn [occurs_untagged]; intros [H1 H2]%orb_false_iff.
  - apply quiet_nil. apply word_match_tagged.
    apply andb_false_iff in H1 as [H1 | H1]; [by right | left].
    by apply negb_false_iff.
  - apply quiet_cons.
    + apply word_match_tagged.
      apply andb_false_iff in H1 as [H1 | H1]; [by right | left].
      by apply negb_false_iff.
    + by apply IH.
Qed.

(** What [occurs_untagged] decides: every position of the text where the
    word stands, in any casing, has [#] right before it. *)
Lemma occurs_untagged_spec w s : forall prev_hash,
  occurs_untagged w prev_hash s = false <->
  forall pre post, s = pre ++ post -> ci_prefix w post = true ->
    match last pre with
    | Some c => c = "#"
    | None => prev_hash = true
    end.
Proof.
  induction s as [|c s IH]; intros prev_hash; cbn [occurs_untagged].
  - rewrite orb_false_r. split.
    + intros H pre post E Hp. symmetry in E.
      apply app_eq_nil in E as [-> ->]. cbn. rewrite Hp in H.
      by apply negb_false_iff in H.
    + intros H. destruct (ci_prefix w []) eqn:Hp; [|done].
      cbn. apply negb_false_iff. by apply (H [] []).
  - rewrite orb_false_iff, IH. clear IH. split.
    + intros [H1 H2] pre post E Hp. destruct pre as [|x pre].
      * cbn in E. subst post. rewrite Hp in H1. cbn.
        by apply negb_false_iff in H1.
      * injection E as <- ->. specialize (H2 pre post eq_refl Hp).
        destruct pre as [|y pre]; [by apply Ascii.eqb_eq in H2|].
        change (last (c :: y :: pre)) with (last (y :: pre)).
        destruct (last (y :: pre)) eqn:El; [exact H2|].
        by apply last_None in El.
    + intros H. split.
      * destruct (ci_prefix w (c :: s)) eqn:Hp; [|done].
        cbn. apply negb_false_iff. by apply (H [] (c :: s)).
      * intros pre post -> Hp. specialize (H (c :: pre) post eq_refl Hp).
        destruct pre as [|y pre]; [by apply Ascii.eqb_eq|].
        change (last (c :: y :: pre)) with (last (y :: pre)) in H.
        destruct (last (y :: pre)) eqn:El; [exact H|].
        by apply last_None in El.
Qed.

Lemma tagged_text_fixed tag text :
  occurs_untagged (bare_word tag) false text = false ->
  RewriteEngine [tag] text = Some (text, false).
Proof.
  intros H. rewrite RewriteEngine_total.
  destruct (pass_quiet [tag] text false) as [-> ->]; [|done].
  constructor; [|done]. by apply (occurs_untagged_quiet _ []).
Qed.

(** C5.  A text in which every occurrence of [project], in any casing, is
    immediately preceded by [#] is returned unchanged, with
    [changed = false], by the pass with the tag set [{#project}]; and the
    rule of [#project] never matches at a position immediately preceded by
    [#], so that [#project] never becomes [##project]. *)
Theorem tagged_project_fixed text :
  occurs_untagged (str "project") false text = false ->
  RewriteEngine [str "#project"] text = Some (text, false) /\
  exists re,
    new_RegExp (tag_pattern (escapeRegExp (bare_word (str "#project"))))
               (str "gi") = Some re /\
    forall before after,
      match_terms (ignoreCase re) (terms re) ("#" :: before) after = None.
Proof.
  intros H. split.
  - by apply tagged_text_fixed.
  - eexists. split; [apply tag_pattern_compiles|].
    intros before after. apply word_match_tagged. by left.
Qed.

(** C5 on a text with two tagged occurrences. *)
Lemma tagged_project_fixed_witness :
  occurs_untagged (str "project") false (str "see #project and #Project")
    = false /\
  RewriteEngine [str "#project"] (str "see #project and #Project") =
  Some (str "see #project and #Project", false).
Proof.
  split; [reflexivity|].
  apply (tagged_project_fixed (str "see #project and #Project")).
  reflexivity.
Defined.

(** ** Tags with an empty bare word *)

Lemma empty_word_match before after :
  word_match [] before after =
  if negb (hash_at before) && xorb (word_at before) (word_at after)
  then Some ([], after) else None.
Proof.
  rewrite word_match_unfold. destruct (hash_at before); [done|].
  unfold match_lits. cbn [map app match_terms negb andb].
  by destruct (xorb _ _).
Qed.

Lemma no_word_char_quiet before s :
  word_at before = false -> no_word_char s = true ->
  quiet (tag_rule []) before s.
Proof.
  revert before. induction s as [|c s IH]; intros before Hb Hs.
  - apply quiet_nil. fold (word_match [] before []).
    rewrite empty_word_match. cbn [word_at]. rewrite Hb. cbn [xorb].
    by rewrite andb_false_r.
  - simpl in Hs. apply andb_true_iff in Hs as [Hc Hs].
    apply negb_true_iff in Hc. apply quiet_cons; [|by apply IH].
    fold (word_match [] before (c :: s)).
    rewrite empty_word_match. cbn [word_at]. rewrite Hb, Hc. cbn [xorb].
    by rewrite andb_false_r.
Qed.

(** C2 (as stated, refuted).  The tag [#] is not skipped: the pass with the
    tag set [{#}] turns [hello] into [#hello#] and reports a change. *)
Lemma empty_tag_not_skipped :
  RewriteEngine [str "#"] (str "hello") = Some (str "#hello#", true).
Proof. reflexivity. Qed.

(** C2 (amended).  A tag whose bare word is empty is not skipped.  Its rule
    compiles and matches the empty string exactly at the positions that
    are a word boundary and not immediately preceded by [#], hence not at
    every position; and a pass whose tag set contains only such tags
    returns unchanged, with [changed = false], every text that has no word
    character. *)
Theorem empty_bare_word_pass tags text :
  Forall (fun tag => bare_word tag = []) tags ->
  no_word_char text = true ->
  (exists re,
     new_RegExp (tag_pattern (escapeRegExp [])) (str "gi") = Some re /\
     forall before after,
       match_terms (ignoreCase re) (terms re) before after =
       if negb (hash_at before) && xorb (word_at before) (word_at after)
       then Some ([], after) else None) /\
  RewriteEngine tags text = Some (text, false).
Proof.
  intros Htags Htext. split.
  - eexists. split; [apply tag_pattern_compiles|]. apply empty_word_match.
  - rewrite RewriteEngine_total.
    destruct (pass_quiet tags text false) as [-> ->]; [|done].
    eapply Forall_impl; [exact Htags|]. intros tag ->.
    by apply no_word_char_quiet.
Qed.

(** The amended C2 on the tags [#] and the empty string. *)
Lemma empty_bare_word_pass_witness :
  (Forall (fun tag => bare_word tag = []) [str "#"; str ""] /\
   no_word_char (str "-- (#) ! --") = true) /\
  RewriteEngine [str "#"; str ""] (str "-- (#) ! --") =
  Some (str "-- (#) ! --", false).
Proof.
  split; [by repeat constructor|].
  apply (empty_bare_word_pass [str "#"; str ""] (str "-- (#) ! --")).
  - by repeat constructor.
  - reflexivity.
Defined.

(** ** The two rewrites on concrete inputs *)

(** C1.  With the registry [#a, #b] and the text [a b], the rewrite of
    [processFile] returns [#a #b], while [convertWordsToTags] leaves the
    editor with [a #b]: each of its turns replaces in the text read before
    the loop, so the editor keeps the last replacement alone. *)
Theorem convertWordsToTags_differs :
  RewriteEngine [str "#a"; str "#b"] (str "a b") = Some (str "#a #b", true) /\
  convertWordsToTags [str "#a"; str "#b"] (mkEditor (str "a b")) =
    Some (mkEditor (str "a #b")).
Proof. split; reflexivity. Qed.

(** The rule of [#c++] matches at no occurrence of [c++] that is followed
    by the end of the text or by a character that is not a word
    character: its closing word boundary stands after [+]. *)
Lemma cpp_rule_needs_word_after before after :
  open_start after = true ->
  match_terms (ignoreCase (tag_rule (str "c++"))) (terms (tag_rule (str "c++")))
              before (str "c++" ++ after) = None.
Proof.
  intros Hafter%negb_true_iff.
  fold (word_match (str "c++") before (str "c++" ++ after)).
  rewrite word_match_unfold. destruct (hash_at before); [done|].
  destruct (xorb _ _); [|done].
  unfold match_lits. cbn. by rewrite Hafter.
Qed.

(** C3.  With the tag [#c++] the pattern compiles, and [c+] is not
    matched; but a standalone [c++] is not rewritten either, because the
    closing word boundary after [+] asks for a word character next: only
    [c++] followed by a word character, as in [c++11], is rewritten. *)
Theorem cpp_standalone_not_rewritten :
  new_RegExp (tag_pattern (escapeRegExp (bare_word (str "#c++")))) (str "gi")
    = Some (tag_rule (str "c++")) /\
  RewriteEngine [str "#c++"] (str "learn c++ today, not c+") =
    Some (str "learn c++ today, not c+", false) /\
  RewriteEngine [str "#c++"] (str "c++") = Some (str "c++", false) /\
  RewriteEngine [str "#c++"] (str "c++11") = Some (str "#c++11", true).
Proof. split_and!; reflexivity. Qed.

(** A bare word without a dollar sign is inserted as it is. *)
Lemma plain_bare_word_literal word matched before rest :
  Forall (fun c => c <> "$") word ->
  substitution ("#" :: word) matched before rest = "#" :: word.
Proof. intros Hword. apply substitution_plain. by constructor. Qed.

(** C10.  With the tag [#a$$b] the occurrence [a$$b] is replaced by
    [#a$b], and with the tag [#x$&] the occurrence [x$&] by [#xx$&]: the
    dollar signs of the bare word are read as directives of the
    replacement template. *)
Theorem dollar_in_bare_word :
  RewriteEngine [str "#a$$b"] (str "a$$b") = Some (str "#a$b", true) /\
  RewriteEngine [str "#x$&"] (str "x$&y") = Some (str "#xx$&y", true).
Proof. split; reflexivity. Qed.

(** ** The registry *)

Lemma Array_includes_elem_of (a : list jsstring) x :
  Array_includes a x = true <-> x ∈ a.
Proof.
  unfold Array_includes. rewrite existsb_exists, list_elem_of_In. split.
  - by intros (y & Hy & ->%jsstring_eqb_eq).
  - intros H. exists x. split; [done | apply jsstring_eqb_refl].
Qed.

Lemma push_tags_NoDup (ts : list TagCache) (acc : list jsstring) :
  NoDup acc -> NoDup (push_tags acc ts).
Proof.
  unfold push_tags. revert acc.
  induction ts as [|t ts IH]; intros acc Hacc; [done|].
  cbn [fold_left]. apply IH.
  destruct (Array_includes acc (tag t)) eqn:E; [done|]. cbn [negb].
  apply NoDup_app. split; [done|]. split; [|apply NoDup_singleton].
  intros x Hx ->%list_elem_of_singleton.
  apply Array_includes_elem_of in Hx. congruence.
Qed.

Lemma push_tags_elem_of (ts : list TagCache) (acc : list jsstring) x :
  x ∈ push_tags acc ts <-> x ∈ acc \/ exists tc, tc ∈ ts /\ tag tc = x.
Proof.
  unfold push_tags. revert acc.
  induction ts as [|t ts IH]; intros acc; cbn [fold_left].
  - split; [by left|]. intros [H | (tc & Htc & _)]; [done|].
    by apply not_elem_of_nil in Htc.
  - rewrite IH. clear IH.
    assert (Hacc : x ∈ (if negb (Array_includes acc (tag t))
                        then acc ++ [tag t] else acc)
                   <-> x ∈ acc \/ tag t = x).
    { destruct (Array_includes acc (tag t)) eqn:E; cbn [negb].
      - apply Array_includes_elem_of in E. split; [by left|].
        by intros [H | <-].
      - rewrite elem_of_app, list_elem_of_singleton.
        split; intros [H | H]; auto. }
    rewrite Hacc. split.
    + intros [[H | H] | (tc & H & Ht)].
      * by left.
      * right. exists t. split; [left | done].
      * right. exists tc. split; [by right | done].
    + intros [H | (tc & H & Ht)]; [by left; left|].
      apply elem_of_cons in H as [-> | H]; [by left; right|].
      right. by exists tc.
Qed.

Lemma collect_tags_NoDup s fs acc :
  NoDup acc -> NoDup (collect_tags s fs acc).
Proof.
  unfold collect_tags. revert acc.
  induction fs as [|file fs IH]; intros acc Hacc; [done|].
  cbn [fold_left]. apply IH.
  destruct (getFileCache s file) as [cache|]; [|done].
  destruct (cm_tags cache) as [ts|]; [|done].
  by apply push_tags_NoDup.
Qed.

Lemma collect_tags_elem_of s fs acc x :
  x ∈ collect_tags s fs acc <-> x ∈ acc \/ tagged_in s fs x.
Proof.
  unfold collect_tags, tagged_in. revert acc.
  induction fs as [|file fs IH]; intros acc; cbn [fold_left].
  - split; [by left|]. intros [H | (f & c & ts & tc & Hf & _)]; [done|].
    by apply not_elem_of_nil in Hf.
  - rewrite IH. clear IH. split.
    + intros [H | (f & c & ts & tc & Hf & Hrest)].
      * destruct (getFileCache s file) as [cache|] eqn:Ec; [|by left].
        destruct (cm_tags cache) as [ts|] eqn:Et; [|by left].
        apply push_tags_elem_of in H as [H | (tc & Htc & Hx)]; [by left|].
        right. exists file, cache, ts, tc. repeat split; try done. by left.
      * right. exists f, c, ts, tc. split; [by right | done].
    + intros [H | (f & c & ts & tc & Hf & Hc & Ht & Htc & Hx)].
      * left. destruct (getFileCache s file) as [cache|]; [|done].
        destruct (cm_tags cache) as [ts|]; [|done].
        apply push_tags_elem_of. by left.
      * apply elem_of_cons in Hf as [-> | Hf].
        -- left. rewrite Hc, Ht. apply push_tags_elem_of. right. by exists tc.
        -- right. exists f, c, ts, tc. done.
Qed.

(** The registry after [updateTags] is a function of the files and of the
    metadata cache alone. *)
Lemma updateTags_tags s :
  tags (updateTags s).2 =
  fold_left (fun acc file =>
               match metadata s !! path file with
               | Some cache =>
                   match cm_tags cache with
                   | Some ts => push_tags acc ts
                   | None => acc
                   end
               | None => acc
               end)
            (filter (fun f => extension f = str "md") (files s)) [].
Proof. reflexivity. Qed.

(** C6.  [updateTags] returns normally and leaves a registry without
    duplicates whose members are exactly the tags cached for the markdown
    files; the registry depends on the files and the metadata cache only,
    not on the registry before nor on anything else in the state; a second
    call in the state the first one left gives the same registry; and for
    notes tagged [{#a, #b}] and [{#b, #c}] the registry is [#a, #b, #c],
    whatever it was before. *)
Theorem updateTags_rebuilds s :
  (updateTags s).1 = inr tt /\
  NoDup (tags (updateTags s).2) /\
  (forall x, x ∈ tags (updateTags s).2 <-> tagged_in s (getMarkdownFiles s) x) /\
  (forall contents' unreadable' unwritable' prior trace',
     tags (updateTags (mkState (files s) contents' unreadable' unwritable'
                               (metadata s) prior trace')).2 =
     tags (updateTags s).2) /\
  tags (updateTags (updateTags s).2).2 = tags (updateTags s).2 /\
  (forall prior contents,
     tags (updateTags (two_notes prior contents)).2 =
     [str "#a"; str "#b"; str "#c"]).
Proof.
  split_and!.
  - reflexivity.
  - apply collect_tags_NoDup, NoDup_nil_2.
  - intros x.
    change (tags (updateTags s).2)
      with (collect_tags (set_tags [] s) (getMarkdownFiles s) []).
    rewrite collect_tags_elem_of. split; [|by right].
    intros [H | H]; [by apply not_elem_of_nil in H | exact H].
  - intros. by rewrite !updateTags_tags.
  - by rewrite !updateTags_tags.
  - intros prior contents. by vm_compute.
Qed.

(** ** processFile and the scan of all files *)

(** A file whose extension does not contain [md] is left alone: nothing is
    read, written or logged. *)
Lemma processFile_skips file s :
  String_includes (extension file) (str "md") = false ->
  processFile file s = (inr tt, s).
Proof. unfold processFile. by intros ->. Qed.

(** What one call of [processFile] does to the state. *)
Lemma processFile_effect file s :
  (processFile file s).1 = inr tt /\
  files (processFile file s).2 = files s /\
  unreadable (processFile file s).2 = unreadable s /\
  unwritable (processFile file s).2 = unwritable s /\
  tags (processFile file s).2 = tags s /\
  (forall p, p <> path file ->
     contents (processFile file s).2 !! p = contents s !! p) /\
  (path file ∈ unreadable s \/ path file ∈ unwritable s ->
     contents (processFile file s).2 = contents s) /\
  (exists evs, trace (processFile file s).2 = trace s ++ evs /\
     (String_includes (extension file) (str "md") = true ->
      io_fails file s -> EvError (error_message file) ∈ evs)) /\
  (forall c, String_includes (extension file) (str "md") = true ->
     contents s !! path file = Some c ->
     path file ∉ unreadable s -> path file ∉ unwritable s ->
     contents (processFile file s).2 !! path file =
     Some (pass_text (tags s) c)).
Proof.
  unfold processFile, io_fails.
  destruct (String_includes (extension file) (str "md")); cbn [negb].
  2:{ split_and!; try done. exists []. by rewrite app_nil_r. }
  unfold try_catch, mbind, M_bind, bind, vault_read, this_tags.
  destruct (decide (path file ∈ unreadable s)) as [Hr | Hr].
  { cbn. split_and!; try done.
    exists [EvRead (path file); EvError (error_message file)].
    split; [by rewrite <- app_assoc|]. intros _ _. apply elem_of_cons. right.
    by left. }
  destruct (contents s !! path file) as [c|] eqn:Ec.
  2:{ cbn. split_and!; try done.
      exists [EvRead (path file); EvError (error_message file)].
      split; [by rewrite <- app_assoc|]. intros _ _. apply elem_of_cons.
      right. by left. }
  cbn [emit tags]. rewrite RewriteEngine_total.
  destruct (pass_flag (tags s) c false) eqn:Ef.
  2:{ cbn. split_and!; try done.
      - exists [EvRead (path file)]. split; [done|].
        intros _ [H | [H | (c' & [= <-] & H & _)]]; congruence.
      - intros c' _ [= <-] _ _. by rewrite (pass_flag_false _ _ Ef). }
  unfold vault_modify, console_log, console_error. cbn [emit unwritable].
  destruct (decide (path file ∈ unwritable s)) as [Hw | Hw].
  { cbn. split_and!; try done.
    exists [EvRead (path file); EvModify (path file) (pass_text (tags s) c);
            EvError (error_message file)].
    split; [by rewrite <- !app_assoc|]. intros _ _.
    apply elem_of_cons. right. apply elem_of_cons. right. by left. }
  cbn. split_and!; try done.
  - intros p Hp. by rewrite lookup_insert_ne.
  - by intros [H | H].
  - exists [EvRead (path file); EvModify (path file) (pass_text (tags s) c);
            EvLog (tagged_message file)].
    split; [by rewrite <- !app_assoc|].
    intros _ [H | [H | (c' & _ & _ & H)]]; congruence.
  - intros c' _ [= <-] _ _. by rewrite lookup_insert_eq.
Qed.

(** The loop of [processAllFiles] over the files [fs]. *)
Lemma for_each_processFile fs : forall s,
  (for_each fs processFile s).1 = inr tt /\
  files (for_each fs processFile s).2 = files s /\
  unreadable (for_each fs processFile s).2 = unreadable s /\
  unwritable (for_each fs processFile s).2 = unwritable s /\
  tags (for_each fs processFile s).2 = tags s /\
  (forall p, p ∉ path <$> fs ->
     contents (for_each fs processFile s).2 !! p = contents s !! p) /\
  (forall p, p ∈ unreadable s \/ p ∈ unwritable s ->
     contents (for_each fs processFile s).2 !! p = contents s !! p) /\
  (exists evs, trace (for_each fs processFile s).2 = trace s ++ evs /\
     (NoDup (path <$> fs) ->
      forall file, file ∈ fs ->
        String_includes (extension file) (str "md") = true ->
        io_fails file s -> EvError (error_message file) ∈ evs)) /\
  (NoDup (path <$> fs) ->
   forall file c, file ∈ fs ->
     String_includes (extension file) (str "md") = true ->
     contents s !! path file = Some c ->
     path file ∉ unreadable s -> path file ∉ unwritable s ->
     contents (for_each fs processFile s).2 !! path file =
     Some (pass_text (tags s) c)).
Proof.
  induction fs as [|f fs IH]; intros s.
  { cbn. split_and!; try done.
    - exists []. split; [by rewrite app_nil_r|].
      intros _ file H. by apply not_elem_of_nil in H.
    - intros _ file c H. by apply not_elem_of_nil in H. }
  cbn [for_each]. unfold mbind, M_bind, bind.
  destruct (processFile_effect f s)
    as (H1 & Hfiles & Hur & Huw & Htags & Hother & Hfail & Htrace & Hgood).
  destruct (processFile f s) as [r s1]. cbn [fst snd] in *. subst r.
  destruct (IH s1)
    as (I1 & Ifiles & Iur & Iuw & Itags & Iother & Ifail & Itrace & Igood).
  assert (Hio : forall g, path g <> path f -> io_fails g s -> io_fails g s1).
  { unfold io_fails. intros g Hg. rewrite Hur, Huw, Htags, (Hother _ Hg).
    done. }
  split_and!.
  - done.
  - congruence.
  - congruence.
  - congruence.
  - congruence.
  - intros p Hp. rewrite fmap_cons, not_elem_of_cons in Hp.
    destruct Hp as [Hp1 Hp2]. rewrite Iother by done. by apply Hother.
  - intros p Hp. rewrite Ifail by (by rewrite Hur, Huw).
    destruct (decide (p = path f)) as [-> | Hne]; [|by apply Hother].
    by rewrite Hfail.
  - destruct Htrace as (e1 & He1 & Hin1). destruct Itrace as (e2 & He2 & Hin2).
    exists (e1 ++ e2). split; [by rewrite He2, He1, app_assoc|].
    rewrite fmap_cons. intros [Hnot Hnd]%NoDup_cons file Hfile Hmd Hio'.
    apply elem_of_app. apply elem_of_cons in Hfile as [-> | Hfile].
    + left. by apply Hin1.
    + right. apply Hin2; [done..|]. apply Hio; [|done].
      intros E. apply Hnot. rewrite <- E. by apply list_elem_of_fmap_2.
  - rewrite fmap_cons. intros [Hnot Hnd]%NoDup_cons file c Hfile Hmd Hc Hr Hw.
    apply elem_of_cons in Hfile as [-> | Hfile].
    + rewrite Iother by done. by apply Hgood.
    + assert (Hne : path file <> path f).
      { intros E. apply Hnot. rewrite <- E. by apply list_elem_of_fmap_2. }
      rewrite <- Htags. apply Igood; try done.
      * by rewrite Hother.
      * by rewrite Hur.
      * by rewrite Huw.
Qed.

Lemma getMarkdownFiles_md s file :
  file ∈ getMarkdownFiles s ->
  String_includes (extension file) (str "md") = true.
Proof.
  unfold getMarkdownFiles. intros H.
  apply list_elem_of_filter in H as [H _]. by rewrite H.
Qed.

(** C7.  In a scan of all files, over markdown files with distinct paths:
    [processAllFiles] returns normally whatever reads and writes are
    rejected; every markdown file whose read and write are not rejected
    ends with the text the rewrite pass returns for its content, wherever
    it stands in the batch; a file whose read or write is rejected keeps
    its content; and each failure leaves an error line in the log. *)
Theorem processAllFiles_isolation s :
  NoDup (path <$> getMarkdownFiles s) ->
  (processAllFiles s).1 = inr tt /\
  (forall file c,
     file ∈ getMarkdownFiles s -> contents s !! path file = Some c ->
     path file ∉ unreadable s -> path file ∉ unwritable s ->
     exists text changed,
       RewriteEngine (tags s) c = Some (text, changed) /\
       contents (processAllFiles s).2 !! path file = Some text) /\
  (forall p, p ∈ unreadable s \/ p ∈ unwritable s ->
     contents (processAllFiles s).2 !! p = contents s !! p) /\
  (forall file, file ∈ getMarkdownFiles s -> io_fails file s ->
     EvError (error_message file) ∈ trace (processAllFiles s).2).
Proof.
  intros Hnd. unfold processAllFiles, mbind, M_bind, bind, console_log,
    this_markdown_files.
  set (s0 := emit (EvLog (str "Auto Tag Words: Snooping through your files..."))
                  s).
  change (getMarkdownFiles s0) with (getMarkdownFiles s).
  destruct (for_each_processFile (getMarkdownFiles s) s0)
    as (I1 & _ & _ & _ & _ & _ & Ifail & (evs & Htrace & Hin) & Igood).
  destruct (for_each (getMarkdownFiles s) processFile s0) as [r s1].
  cbn [fst snd] in *. subst r. cbn [fst snd emit contents trace].
  split_and!.
  - done.
  - intros file c Hfile Hc Hr Hw.
    exists (pass_text (tags s) c), (pass_flag (tags s) c false).
    split; [apply RewriteEngine_total|].
    apply (Igood Hnd); try done. by apply (getMarkdownFiles_md s).
  - intros p Hp. by apply Ifail.
  - intros file Hfile Hio. rewrite Htrace.
    apply elem_of_app. left. apply elem_of_app. right.
    apply (Hin Hnd file); [done | by apply (getMarkdownFiles_md s) | done].
Qed.

(** C7 on the three notes: A and C are rewritten, B keeps its content. *)
Lemma processAllFiles_isolation_witness :
  NoDup (path <$> getMarkdownFiles three_notes) /\
  (processAllFiles three_notes).1 = inr tt /\
  contents (processAllFiles three_notes).2 !! str "A.md" =
    Some (str "my #project") /\
  contents (processAllFiles three_notes).2 !! str "B.md" =
    Some (str "project b") /\
  contents (processAllFiles three_notes).2 !! str "C.md" =
    Some (str "the #project, again").
Proof.
  assert (Hnd : NoDup (path <$> getMarkdownFiles three_notes)).
  { apply (bool_decide_unpack _). by vm_compute. }
  destruct (processAllFiles_isolation three_notes Hnd)
    as (Hret & Hgood & Hfail & _).
  split_and!.
  - exact Hnd.
  - exact Hret.
  - destruct (Hgood (mkTFile (str "A.md") (str "A") (str "md"))
                    (str "my Project"))
      as (text & changed & Hrw & Hc);
      [by vm_compute; left | by vm_compute | by vm_compute | by vm_compute |].
    vm_compute in Hrw. injection Hrw as <- <-. exact Hc.
  - rewrite Hfail; [by vm_compute | right; by vm_compute].
  - destruct (Hgood (mkTFile (str "C.md") (str "C") (str "md"))
                    (str "the project, again"))
      as (text & changed & Hrw & Hc);
      [vm_compute; do 2 right; by left
      | by vm_compute | by vm_compute | by vm_compute |].
    vm_compute in Hrw. injection Hrw as <- <-. exact Hc.
Defined.

(** C9.  A file with the extension [cmd] is not a markdown file, yet its
    extension contains [md]: [processFile] reads it and writes the
    rewritten text. *)
Theorem processFile_cmd_file :
  extension cmd_file <> str "md" /\
  (cmd_file ∉ getMarkdownFiles cmd_vault) /\
  contents (processFile cmd_file cmd_vault).2 !! str "run.cmd" =
    Some (str "start #project") /\
  trace (processFile cmd_file cmd_vault).2 =
    [EvRead (str "run.cmd"); EvModify (str "run.cmd") (str "start #project");
     EvLog (str "Auto Tag Words: run was tagged")].
Proof.
  split_and!.
  - by vm_compute.
  - vm_compute. by intros H%not_elem_of_nil.
  - by vm_compute.
  - by vm_compute.
Qed.

(** * Further properties of the rewrite *)

(** ** escapeRegExp and the pattern *)

Lemma unescape_escape_char c s :
  unescape (escape_char c ++ s) = c :: unescape s.
Proof.
  unfold escape_char. destruct c as [[] [] [] [] [] [] [] []]; reflexivity.
Qed.

(** X1.  [escapeRegExp] puts a backslash before each of the characters
    [. * + ? ^ $ { } ( ) | [ ] \] and copies every other character; removing
    those backslashes gives the string back, so different words never give
    the same pattern text. *)
Theorem escapeRegExp_round_trip s :
  escapeRegExp s = flat_map escape_char s /\
  unescape (escapeRegExp s) = s /\
  length s <= length (escapeRegExp s) <= 2 * length s.
Proof.
  rewrite escapeRegExp_flat_map. split; [done|].
  induction s as [|c s [IH1 IH2]]; [by cbn|].
  cbn [flat_map]. rewrite unescape_escape_char, IH1. split; [done|].
  rewrite length_app. cbn [length].
  assert (1 <= length (escape_char c) <= 2)
    by (unfold escape_char; destruct (is_special c); cbn; lia).
  lia.
Qed.

(** X2.  For every tag, whatever characters it has, the pattern that the
    loops build from it compiles, and to the rule that reads: not preceded
    by [#], a word boundary, the characters of the bare word one by one as
    literals, a word boundary; global and ignoring case. *)
Theorem tag_rule_always_compiles tag :
  new_RegExp (tag_pattern (escapeRegExp (toLowerCase (slice1 tag)))) (str "gi")
  = Some (mkRegExp (NegLookbehind ["#"] :: WordBoundary ::
                    map Lit (toLowerCase (slice1 tag)) ++ [WordBoundary])
                   true true).
Proof. apply tag_pattern_compiles. Qed.

(** ** What a pass does to the text *)

Lemma match_lits_Forall2 w before after m rest :
  match_lits w before after = Some (m, rest) ->
  Forall2 (fun c x => char_eq true c x = true) w m.
Proof.
  unfold match_lits. revert before after m rest.
  induction w as [|c w IH]; intros before after m rest;
    cbn [map app match_terms].
  - destruct (xorb _ _); [|done]. intros [= <- _]. constructor.
  - destruct after as [|x after]; [done|].
    destruct (char_eq true c x) eqn:E; [|done].
    destruct (match_terms true (map Lit w ++ [WordBoundary]) (x :: before) after)
      as [[m' r']|] eqn:Em; [|done].
    cbn. intros [= <- _]. constructor; [done|]. by apply (IH _ _ _ _ Em).
Qed.

Lemma word_match_Forall2 w before after m rest :
  word_match w before after = Some (m, rest) ->
  Forall2 (fun c x => char_eq true c x = true) w m /\ after = m ++ rest.
Proof.
  intros H. split; [|by apply match_terms_app in H].
  rewrite word_match_unfold in H. destruct (hash_at before); [done|].
  destruct (xorb _ _); [|done]. by apply match_lits_Forall2 in H.
Qed.

Lemma lower_char_canonicalize c : lower_char (canonicalize c) = lower_char c.
Proof. destruct c as [[] [] [] [] [] [] [] []]; reflexivity. Qed.

Lemma skeleton_app s t : skeleton (s ++ t) = skeleton s ++ skeleton t.
Proof.
  unfold skeleton, toLowerCase. by rewrite List.filter_app, List.map_app.
Qed.

Lemma skeleton_cons c s : skeleton (c :: s) = skeleton [c] ++ skeleton s.
Proof. apply (skeleton_app [c] s). Qed.

Lemma skeleton_ci w m :
  Forall2 (fun c x => char_eq true c x = true) w m -> skeleton w = skeleton m.
Proof.
  induction 1 as [|c x w m Hcx _ IH]; [done|].
  change (c :: w) with ([c] ++ w). change (x :: m) with ([x] ++ m).
  rewrite !skeleton_app, IH. f_equal.
  unfold char_eq in Hcx. apply Ascii.eqb_eq in Hcx.
  unfold skeleton. cbn [List.filter].
  rewrite <- (canonicalize_hash c), <- (canonicalize_hash x), Hcx.
  destruct (negb _); [|done]. cbn.
  by rewrite <- (lower_char_canonicalize c), Hcx, lower_char_canonicalize.
Qed.

Lemma dollar_free_spec tag :
  dollar_free tag = true -> Forall (fun c => c <> "$") ("#" :: bare_word tag).
Proof.
  unfold dollar_free. intros H. constructor; [done|].
  apply Forall_forall. intros c Hc ->.
  rewrite forallb_forall in H. apply list_elem_of_In, H in Hc. done.
Qed.

Section PlainTemplate.

Variable w : jsstring.
Hypothesis Hplain : Forall (fun c => c <> "$") ("#" :: w).

(** One turn of the loop for any bare word without a dollar sign. *)
Lemma replace_from_plain fuel before after :
  replace_from (S fuel) (tag_rule w) ("#" :: w) before after =
  match word_match w before after with
  | Some (m, rest) =>
      "#" :: w ++
      match m with
      | [] =>
          match after with
          | [] => []
          | c :: after' =>
              c :: replace_from fuel (tag_rule w) ("#" :: w) (c :: before) after'
          end
      | _ :: _ =>
          replace_from fuel (tag_rule w) ("#" :: w) (rev m ++ before) rest
      end
  | None =>
      match after with
      | [] => []
      | c :: after' =>
          c :: replace_from fuel (tag_rule w) ("#" :: w) (c :: before) after'
      end
  end.
Proof.
  cbn [replace_from]. fold (word_match w before after).
  destruct (word_match w before after) as [[m rest]|]; [|done].
  by rewrite substitution_plain.
Qed.

Lemma replace_from_skeleton fuel before after :
  skeleton (replace_from fuel (tag_rule w) ("#" :: w) before after)
  = skeleton after.
Proof.
  revert before after. induction fuel as [|fuel IH]; intros before after;
    [done|].
  rewrite replace_from_plain.
  destruct (word_match w before after) as [[m rest]|] eqn:E.
  - apply word_match_Forall2 in E as [Hwm ->].
    rewrite (skeleton_cons "#"). change (skeleton ["#"]) with (@nil ascii).
    cbn [app]. rewrite (skeleton_app w), (skeleton_ci _ _ Hwm).
    rewrite (skeleton_app m rest). f_equal.
    destruct m as [|x m]; cbn [app].
    + destruct rest as [|c rest]; [done|].
      by rewrite (skeleton_cons c), IH, <- skeleton_cons.
    + apply IH.
  - destruct after as [|c after]; [done|].
    by rewrite (skeleton_cons c), IH, <- skeleton_cons.
Qed.

(** The replacement never shortens the text, and keeps its length only
    when it returns the text itself. *)
Lemma replace_from_length fuel before after :
  length after <= length (replace_from fuel (tag_rule w) ("#" :: w) before after)
  /\ (length (replace_from fuel (tag_rule w) ("#" :: w) before after)
      = length after ->
      replace_from fuel (tag_rule w) ("#" :: w) before after = after).
Proof.
  revert before after. induction fuel as [|fuel IH]; intros before after;
    [done|].
  rewrite replace_from_plain.
  destruct (word_match w before after) as [[m rest]|] eqn:E.
  - apply word_match_Forall2 in E as [Hwm ->].
    apply Forall2_length in Hwm. cbn [length]. rewrite !length_app.
    destruct m as [|x m]; cbn [app length] in *.
    + destruct rest as [|c rest]; cbn [length]; [lia|].
      destruct (IH (c :: before) rest) as [Hle _]. lia.
    + destruct (IH (rev (x :: m) ++ before) rest) as [Hle _]. lia.
  - destruct after as [|c after]; [done|].
    destruct (IH (c :: before) after) as [Hle Heq]. cbn [length].
    split; [lia|]. intros H. f_equal. apply Heq. lia.
Qed.

End PlainTemplate.

Lemma rewrite_tag_skeleton tag text :
  dollar_free tag = true -> skeleton (rewrite_tag tag text) = skeleton text.
Proof. intros H%dollar_free_spec. by apply replace_from_skeleton. Qed.

Lemma rewrite_tag_length tag text :
  dollar_free tag = true ->
  length text <= length (rewrite_tag tag text) /\
  (length (rewrite_tag tag text) = length text -> rewrite_tag tag text = text).
Proof. intros H%dollar_free_spec. by apply replace_from_length. Qed.

Lemma pass_text_length tags text :
  Forall (fun tag => dollar_free tag = true) tags ->
  length text <= length (pass_text tags text).
Proof.
  intros Htags. revert text.
  induction Htags as [|tag tags Htag _ IH]; intros text; [done|].
  cbn [pass_text fold_left]. etransitivity; [|apply IH].
  by apply rewrite_tag_length.
Qed.

Lemma pass_flag_length tags text changed :
  Forall (fun tag => dollar_free tag = true) tags ->
  pass_flag tags text changed =
  changed || negb (Nat.eqb (length (pass_text tags text)) (length text)).
Proof.
  intros Htags. revert text changed.
  induction Htags as [|tag tags Htag Htags IH]; intros text changed.
  - cbn. by rewrite Nat.eqb_refl, orb_false_r.
  - cbn [pass_flag pass_text fold_left]. rewrite IH.
    fold (pass_text tags (rewrite_tag tag text)).
    destruct (rewrite_tag_length tag text Htag) as [Hle Heq].
    pose proof (pass_text_length tags (rewrite_tag tag text) Htags) as Hle'.
    destruct (jsstring_eqb (rewrite_tag tag text) text) eqn:E.
    + apply jsstring_eqb_eq in E. rewrite E. by rewrite orb_false_r.
    + apply jsstring_eqb_neq in E. cbn [negb]. rewrite orb_true_r. cbn [orb].
      symmetry. rewrite orb_true_iff. right.
      apply negb_true_iff, Nat.eqb_neq. intros Hl.
      apply E, Heq. lia.
Qed.

(** ** Whole words *)

Lemma run_app_l p before after :
  p <> [] -> word_at (rev p ++ before) = false -> run (p ++ after) = run p.
Proof.
  revert before. induction p as [|c p IH]; intros before Hne Hb; [done|].
  cbn [app run]. destruct (is_word c) eqn:Ec; [|done]. f_equal.
  destruct p as [|c' p].
  - cbn in Hb. congruence.
  - apply (IH (c :: before)); [done|].
    cbn [rev] in *. by rewrite <- !app_assoc in *.
Qed.

Lemma after_run_app_l p before after :
  p <> [] -> word_at (rev p ++ before) = false ->
  after_run (p ++ after) = after_run p ++ after.
Proof.
  revert before. induction p as [|c p IH]; intros before Hne Hb; [done|].
  cbn [app after_run]. destruct (is_word c) eqn:Ec; [|done].
  destruct p as [|c' p].
  - cbn in Hb. congruence.
  - apply (IH (c :: before)); [done|].
    cbn [rev] in *. by rewrite <- !app_assoc in *.
Qed.

Lemma lower_char_idemp c : lower_char (lower_char c) = lower_char c.
Proof. destruct c as [[] [] [] [] [] [] [] []]; reflexivity. Qed.

Lemma toLowerCase_idemp s : toLowerCase (toLowerCase s) = toLowerCase s.
Proof.
  unfold toLowerCase. rewrite map_map. apply map_ext. apply lower_char_idemp.
Qed.

(** A word in lower case equals a text up to case exactly when it is the
    text put in lower case. *)
Lemma ci_eqb_lower w r :
  toLowerCase w = w -> ci_eqb w r = jsstring_eqb (toLowerCase r) w.
Proof.
  revert r. induction w as [|c w IH]; intros [|x r] Hl; try done.
  cbn in Hl. injection Hl as Hc Hl. cbn [ci_eqb toLowerCase map jsstring_eqb].
  fold (toLowerCase r). rewrite (IH r Hl). f_equal.
  unfold char_eq.
  destruct (Ascii.eqb_spec (canonicalize c) (canonicalize x)) as [E|E];
    destruct (Ascii.eqb_spec (lower_char x) c) as [E'|E']; try done.
  - exfalso. apply E'.
    by rewrite <- (lower_char_canonicalize x), <- E, lower_char_canonicalize.
  - exfalso. apply E. by rewrite <- E', canonicalize_lower_char.
Qed.

Section WholeWords.

Variable w : jsstring.
Hypothesis Hw : forallb is_word w = true.
Hypothesis Hne : w <> [].

Lemma ci_eqb_nil_r : ci_eqb w [] = false.
Proof. by destruct w. Qed.

Lemma replace_from_nil fuel before :
  replace_from fuel (tag_rule w) ("#" :: w) before [] = [].
Proof.
  destruct fuel as [|fuel]; [done|]. rewrite replace_from_word by done.
  cbn [run]. by rewrite ci_eqb_nil_r, andb_false_r.
Qed.

(** The loop depends on what stands before the position only through the
    character next to it. *)
Lemma replace_from_context fuel : forall after before before',
  hash_at before = hash_at before' -> word_at before = word_at before' ->
  replace_from fuel (tag_rule w) ("#" :: w) before after =
  replace_from fuel (tag_rule w) ("#" :: w) before' after.
Proof.
  induction fuel as [|fuel IH]; intros after before before' Hh Hwd; [done|].
  rewrite !replace_from_word by done. rewrite <- Hh, <- Hwd.
  destruct (negb (hash_at before) && negb (word_at before) &&
            ci_eqb w (run after)) eqn:Ec.
  - assert (Hrun : run after <> []).
    { apply andb_true_iff in Ec as [_ Ec]. apply ci_eqb_length in Ec.
      destruct (run after); [|done]. by destruct w. }
    destruct (rev_word_head (run after) before (run_is_word after) Hrun)
      as [Hh1 Hw1].
    destruct (rev_word_head (run after) before' (run_is_word after) Hrun)
      as [Hh2 Hw2].
    do 2 f_equal. apply IH; congruence.
  - destruct after as [|c after]; [done|]. f_equal. by apply IH.
Qed.

(** A text that does not start with a word character is rewritten in the
    same way whatever stands before it. *)
Lemma replace_from_open_start fuel post before before' :
  word_at post = false ->
  replace_from fuel (tag_rule w) ("#" :: w) before post =
  replace_from fuel (tag_rule w) ("#" :: w) before' post.
Proof.
  intros Hp. destruct fuel as [|fuel]; [done|].
  rewrite !replace_from_word by done.
  assert (Hrun : run post = []).
  { destruct post as [|c post]; [done|]. cbn in *. by rewrite Hp. }
  rewrite Hrun, ci_eqb_nil_r, !andb_false_r.
  destruct post as [|c post]; [done|]. f_equal.
  by apply replace_from_context.
Qed.

(** What the loop does to a text that does not end with a word character
    does not depend on what follows the text. *)
Lemma replace_from_prefix fuel : forall p before after f1 f2,
  length (p ++ after) < fuel -> length p < f1 -> length after < f2 ->
  word_at (rev p ++ before) = false ->
  replace_from fuel (tag_rule w) ("#" :: w) before (p ++ after) =
  replace_from f1 (tag_rule w) ("#" :: w) before p ++
  replace_from f2 (tag_rule w) ("#" :: w) (rev p ++ before) after.
Proof.
  induction fuel as [|fuel IH]; intros p before after f1 f2 Hf Hf1 Hf2 Hb;
    [lia|].
  destruct p as [|c p].
  - rewrite replace_from_nil. cbn [app rev] in *.
    apply replace_from_fuel; lia.
  - destruct f1 as [|f1]; [lia|].
    rewrite !replace_from_word by done.
    rewrite (run_app_l (c :: p) before after) by done.
    destruct (negb (hash_at before) && negb (word_at before) &&
              ci_eqb w (run (c :: p))) eqn:Ec.
    + assert (Hrun : run (c :: p) <> []).
      { apply andb_true_iff in Ec as [_ Ec]. apply ci_eqb_length in Ec.
        destruct (run (c :: p)); [|done]. by destruct w. }
      pose proof (run_split (c :: p)) as Hsplit.
      pose proof (f_equal length Hsplit) as Hlen.
      rewrite length_app in Hlen.
      assert (0 < length (run (c :: p)))
        by (destruct (run (c :: p)); [done | simpl; lia]).
      rewrite (after_run_app_l (c :: p) before after) by done.
      cbn [app]. f_equal. rewrite <- app_assoc. f_equal.
      rewrite (IH (after_run (c :: p)) _ after f1 f2).
      * f_equal. f_equal.
        rewrite app_assoc, <- rev_app_distr. by rewrite <- Hsplit.
      * rewrite length_app in *. lia.
      * lia.
      * done.
      * rewrite app_assoc, <- rev_app_distr. by rewrite <- Hsplit.
    + cbn [app]. f_equal. cbn [rev] in *. rewrite <- app_assoc in *.
      cbn [length app] in *. apply IH; [lia | lia | done | done].
Qed.

(** A run of word characters at which the rule does not match is copied. *)
Lemma replace_from_run_copy r : forall fuel before post,
  forallb is_word r = true -> word_at post = false ->
  negb (hash_at before) && negb (word_at before) && ci_eqb w r = false ->
  replace_from (length r + fuel) (tag_rule w) ("#" :: w) before (r ++ post) =
  r ++ replace_from fuel (tag_rule w) ("#" :: w) (rev r ++ before) post.
Proof.
  induction r as [|c r IH]; intros fuel before post Hr Hp Hc; [done|].
  cbn [length Nat.add]. rewrite replace_from_word by done.
  rewrite run_app by done. rewrite Hc. cbn [app]. f_equal.
  simpl in Hr. apply andb_true_iff in Hr as [Hx Hr].
  cbn [rev]. rewrite <- app_assoc. apply IH; [done | done |].
  cbn [word_at app]. rewrite Hx. by rewrite andb_false_r.
Qed.

(** The replacement word by word: between a text that does not end with a
    word character and a text that does not start with one, a run of word
    characters is replaced by the tag when it is the word up to case and
    [#] does not stand before it, and is copied otherwise; the texts on
    both sides are rewritten as they are on their own. *)
Lemma replace_whole_word pre r post :
  forallb is_word r = true ->
  ends_with_word pre = false -> open_start post = true ->
  replace (pre ++ r ++ post) (tag_rule w) ("#" :: w) =
  replace pre (tag_rule w) ("#" :: w) ++
  (if ci_eqb w r && negb (ends_with_hash pre) then "#" :: w else r) ++
  replace post (tag_rule w) ("#" :: w).
Proof.
  unfold ends_with_word, ends_with_hash, open_start, replace.
  intros Hr Hpre Hpost%negb_true_iff.
  rewrite (replace_from_prefix _ pre [] (r ++ post) (S (length pre))
             (length r + S (length post)));
    rewrite ?length_app, ?app_nil_r; [|lia..|done].
  f_equal.
  destruct (ci_eqb w r && negb (hash_at (rev pre))) eqn:Ec.
  - apply andb_true_iff in Ec as [Eci Eh]. apply negb_true_iff in Eh.
    assert (Hr0 : r <> []).
    { apply ci_eqb_length in Eci. destruct r; [|done]. by destruct w. }
    destruct r as [|x r]; [done|]. cbn [length Nat.add].
    rewrite replace_from_word by done.
    rewrite run_app, after_run_app by done.
    rewrite Eh, Hpre, Eci. cbn [negb andb app]. f_equal. f_equal.
    rewrite (replace_from_open_start _ post _ []) by done.
    apply replace_from_fuel; lia.
  - rewrite replace_from_run_copy; [|done|done|].
    + f_equal. by apply replace_from_open_start.
    + rewrite Hpre. cbn [negb]. rewrite andb_true_r.
      rewrite andb_comm. exact Ec.
Qed.

End WholeWords.

(** The pass with one tag made of word characters, word by word. *)
Lemma rewrite_whole_word tag pre r post :
  word_tag tag = true -> forallb is_word r = true ->
  ends_with_word pre = false -> open_start post = true ->
  RewriteEngine [tag] (pre ++ r ++ post) =
  (let hit := ci_eqb (bare_word tag) r && negb (ends_with_hash pre) in
   '(pre', c1) ← RewriteEngine [tag] pre;
   '(post', c2) ← RewriteEngine [tag] post;
   Some (pre' ++ (if hit then "#" :: bare_word tag else r) ++ post',
         c1 || hit || c2)).
Proof.
  intros Htag Hr Hpre Hpost.
  destruct (word_tag_spec tag Htag) as [Hw Hne].
  assert (Hd : dollar_free tag = true).
  { unfold dollar_free. apply forallb_forall. intros c Hc.
    apply negb_true_iff, Ascii.eqb_neq, is_word_not_dollar.
    rewrite forallb_forall in Hw. by apply Hw. }
  rewrite !RewriteEngine_total.
  cbn [pass_text pass_flag fold_left orb mbind option_bind].
  unfold rewrite_tag at 1 2. rewrite (replace_whole_word _ Hw Hne) by done.
  fold (rewrite_tag tag pre). fold (rewrite_tag tag post).
  destruct (rewrite_tag_length tag pre Hd) as [Hle1 Heq1].
  destruct (rewrite_tag_length tag post Hd) as [Hle2 Heq2].
  f_equal. f_equal.
  destruct (ci_eqb (bare_word tag) r && negb (ends_with_hash pre)) eqn:Ec.
  - rewrite orb_true_r. cbn [orb]. apply negb_true_iff, jsstring_eqb_neq.
    intros E. apply (f_equal length) in E.
    apply andb_true_iff in Ec as [Ec _]. apply ci_eqb_length in Ec.
    rewrite ?length_app in E. cbn [length app] in E.
    rewrite ?length_app in E. lia.
  - rewrite orb_false_r.
    destruct (jsstring_eqb (rewrite_tag tag pre) pre) eqn:E1.
    + apply jsstring_eqb_eq in E1. rewrite E1. cbn [negb orb].
      destruct (jsstring_eqb (rewrite_tag tag post) post) eqn:E2.
      * apply jsstring_eqb_eq in E2. rewrite E2. by rewrite jsstring_eqb_refl.
      * cbn [negb]. apply negb_true_iff, jsstring_eqb_neq.
        intros E. apply app_inv_head, app_inv_head in E.
        by apply jsstring_eqb_neq in E2.
    + cbn [negb orb]. apply negb_true_iff, jsstring_eqb_neq.
      intros E. apply jsstring_eqb_neq in E1. apply E1, Heq1.
      apply (f_equal length) in E. rewrite !length_app in E. lia.
Qed.

(** C8.  With the tag [#project], whole words are what the pass rewrites.
    The rule matches at no position where [projection] stands.  And in any
    text, take a run [r] of word characters with no word character right
    before it or right after it, [pre] being the text before it and [post]
    the text after it: the pass returns the text that it returns for [pre],
    then [#project] if [r] is [project] in any casing and [pre] does not
    end with [#], and [r] itself otherwise (so [projection] and any other
    word is copied), then the text that it returns for [post]; it reports
    a change when [r] was replaced or when it reports one for [pre] or for
    [post]. *)
Theorem project_boundary_and_case pre r post :
  forallb is_word r = true ->
  ends_with_word pre = false -> open_start post = true ->
  (exists re,
     new_RegExp (tag_pattern (escapeRegExp (bare_word (str "#project"))))
                (str "gi") = Some re /\
     forall before after,
       match_terms (ignoreCase re) (terms re)
                   before (str "projection" ++ after) = None) /\
  exists pre' c1 post' c2,
    RewriteEngine [str "#project"] pre = Some (pre', c1) /\
    RewriteEngine [str "#project"] post = Some (post', c2) /\
    let hit := jsstring_eqb (toLowerCase r) (str "project") &&
               negb (ends_with_hash pre) in
    RewriteEngine [str "#project"] (pre ++ r ++ post) =
    Some (pre' ++ (if hit then str "#project" else r) ++ post',
          c1 || hit || c2).
Proof.
  intros Hr Hpre Hpost. split.
  - eexists. split; [apply tag_pattern_compiles|].
    intros before after. apply word_match_None; [done..|].
    change (bare_word (str "#project")) with (str "project").
    cbn. apply andb_false_r.
  - pose proof (rewrite_whole_word (str "#project") pre r post eq_refl
                  Hr Hpre Hpost) as H.
    rewrite !RewriteEngine_total in *.
    cbn [pass_text pass_flag fold_left orb mbind option_bind] in *.
    change (bare_word (str "#project")) with (str "project") in H.
    rewrite (ci_eqb_lower (str "project") r eq_refl) in H.
    eexists _, _, _, _. split; [done|]. split; [done|]. exact H.
Qed.

(** C8 on a sentence with the word in two casings and with [projection]
    between them. *)
Lemma project_boundary_and_case_witness :
  (forallb is_word (str "projection") = true /\
   ends_with_word (str "My PrOjEcT and ") = false /\
   open_start (str ", see Project.") = true) /\
  RewriteEngine [str "#project"]
    (str "My PrOjEcT and " ++ str "projection" ++ str ", see Project.") =
  Some (str "My #project and " ++ str "projection" ++ str ", see #project.",
        true).
Proof.
  split; [by repeat split|].
  destruct (project_boundary_and_case
              (str "My PrOjEcT and ") (str "projection")
              (str ", see Project.") eq_refl eq_refl eq_refl)
    as (_ & pre' & c1 & post' & c2 & H1 & H2 & H).
  vm_compute in H1. vm_compute in H2.
  injection H1 as <- <-. injection H2 as <- <-. exact H.
Defined.

(** ** Idempotence for bare words that cannot overlap themselves *)

Lemma ci_refl c : ci c c.
Proof. unfold ci, char_eq. apply Ascii.eqb_refl. Qed.

Lemma ci_trans a b c : ci a b -> ci b c -> ci a c.
Proof.
  unfold ci, char_eq. intros H1%Ascii.eqb_eq H2%Ascii.eqb_eq.
  apply Ascii.eqb_eq. congruence.
Qed.

Lemma ci_sym a b : ci a b -> ci b a.
Proof.
  unfold ci, char_eq. intros H1%Ascii.eqb_eq. by apply Ascii.eqb_eq.
Qed.

Lemma ci_hash a b : ci a b -> Ascii.eqb "#" a = Ascii.eqb "#" b.
Proof.
  unfold ci, char_eq. intros H%Ascii.eqb_eq.
  by rewrite <- (canonicalize_hash a), <- (canonicalize_hash b), H.
Qed.

Lemma ci_hash_l c : ci c "#" -> Ascii.eqb "#" c = true.
Proof. intros H%ci_sym%ci_hash. rewrite <- H. done. Qed.

(** The matcher of the literals and of the closing word boundary, by the
    literals alone. *)
Lemma match_lits_strip w : forall before after,
  match_lits w before after =
  match strip w after with
  | Some (m, rest) =>
      if xorb (word_at (rev m ++ before)) (word_at rest)
      then Some (m, rest) else None
  | None => None
  end.
Proof.
  unfold match_lits.
  induction w as [|c w IH]; intros before after; cbn [map app match_terms strip].
  - done.
  - destruct after as [|x after]; [done|].
    destruct (char_eq true c x); [|done].
    rewrite IH. destruct (strip w after) as [[m rest]|]; [|done].
    cbn [mbind option_bind rev]. rewrite <- app_assoc. cbn [app].
    by destruct (xorb _ _).
Qed.

Lemma word_match_strip w before after :
  word_match w before after =
  if hash_at before then None
  else if xorb (word_at before) (word_at after)
       then match strip w after with
            | Some (m, rest) =>
                if xorb (word_at (rev m ++ before)) (word_at rest)
                then Some (m, rest) else None
            | None => None
            end
       else None.
Proof. by rewrite word_match_unfold, match_lits_strip. Qed.

Lemma strip_spec w : forall a m rest,
  strip w a = Some (m, rest) -> Forall2 ci w m /\ a = m ++ rest.
Proof.
  induction w as [|c w IH]; intros a m rest; cbn [strip].
  - intros [= <- <-]. by split.
  - destruct a as [|x a]; [done|].
    destruct (char_eq true c x) eqn:E; [|done].
    destruct (strip w a) as [[m' r']|] eqn:Es; [|done].
    cbn. intros [= <- <-]. destruct (IH _ _ _ Es) as [H1 ->].
    split; [by constructor | done].
Qed.

Lemma strip_hash w X :
  w <> [] -> hash_free w = true -> strip w ("#" :: X) = None.
Proof.
  destruct w as [|c w]; [done|]. intros _ [Hc _]%andb_true_iff.
  cbn [strip]. destruct (char_eq true c "#") eqn:E; [|done].
  apply ci_hash_l in E. by rewrite E in Hc.
Qed.

(** The characters next to a position, on two texts equal up to case. *)
Lemma ci_word_at s t X Y :
  Forall2 ci s t -> s <> [] -> word_at (s ++ X) = word_at (t ++ Y).
Proof.
  intros [|c x s' t' Hc _] Hne; [done|]. cbn. by apply char_eq_is_word.
Qed.

Lemma ci_rev_context s t : forall b1 b2,
  Forall2 ci s t ->
  hash_at b1 = hash_at b2 -> word_at b1 = word_at b2 ->
  hash_at (rev s ++ b1) = hash_at (rev t ++ b2) /\
  word_at (rev s ++ b1) = word_at (rev t ++ b2).
Proof.
  intros b1 b2 H. revert b1 b2.
  induction H as [|c x s t Hc _ IH]; intros b1 b2 Hh Hw; [done|].
  cbn [rev]. rewrite <- !app_assoc. cbn [app]. apply IH; cbn.
  - by apply ci_hash.
  - by apply char_eq_is_word.
Qed.

Lemma ci_rev_context_ne s t b1 b2 :
  Forall2 ci s t -> s <> [] ->
  hash_at (rev s ++ b1) = hash_at (rev t ++ b2) /\
  word_at (rev s ++ b1) = word_at (rev t ++ b2).
Proof.
  intros H Hne. destruct H as [|c x s' t' Hc H]; [done|]. clear Hne.
  cbn [rev]. rewrite <- !app_assoc. cbn [app]. apply ci_rev_context; cbn.
  - done.
  - by apply ci_hash.
  - by apply char_eq_is_word.
Qed.

Lemma overlaps_found wf u w1 : forall b0,
  rev w1 ++ b0 <> [] -> u <> [] ->
  overlap_at wf (rev w1 ++ b0) u = true ->
  overlaps wf b0 (w1 ++ u) = true.
Proof.
  induction w1 as [|c w1 IH]; intros b0 Hb Hu Ho.
  - cbn [rev app] in *. destruct u as [|c u]; [done|]. cbn [overlaps].
    destruct b0 as [|y b0]; [congruence|]. by rewrite Ho.
  - cbn [app overlaps]. rewrite (IH (c :: b0)); [apply orb_true_r| |done|].
    + cbn [rev] in Hb. by rewrite <- app_assoc in Hb.
    + cbn [rev] in Ho. by rewrite <- app_assoc in Ho.
Qed.

Lemma ci_prefix_Forall2 u wa wb v :
  Forall2 ci u v -> Forall2 ci wa v -> ci_prefix u (wa ++ wb) = true.
Proof.
  intros H. revert wa. induction H as [|c x u v Hc _ IH]; intros wa Hwa;
    [done|].
  inversion Hwa as [|c' x' wa' v' Hc' Hwa']; subst. cbn [app ci_prefix].
  rewrite IH by done. rewrite andb_true_r.
  apply (ci_trans _ x); [done | by apply ci_sym].
Qed.

Section StableTags.

Variable w : jsstring.
Hypothesis Hplain : Forall (fun c => c <> "$") ("#" :: w).
Hypothesis Hne : w <> [].

Abbreviation loop fuel := (replace_from fuel (tag_rule w) ("#" :: w)).

(** Where the loop stands at a match it writes [#]; elsewhere it copies
    the character at the position. *)
Lemma loop_at_match fuel before after p :
  length after < fuel -> word_match w before after = Some p ->
  exists X, loop fuel before after = "#" :: X.
Proof.
  intros Hlen E. destruct fuel as [|fuel]; [lia|].
  rewrite replace_from_plain by done. rewrite E. destruct p as [m rest].
  by eexists.
Qed.

Lemma loop_word_at fuel before after :
  length after < fuel -> word_match w before after = None ->
  word_at (loop fuel before after) = word_at after.
Proof.
  intros Hlen E. destruct fuel as [|fuel]; [lia|].
  rewrite replace_from_plain by done. rewrite E. by destruct after.
Qed.

(** A match of the first rule in the text, where the first occurrence
    stands, and a match of it that starts inside that occurrence. *)
Lemma overlap_found w1 u m1 v rest before :
  w = w1 ++ u -> w1 <> [] -> u <> [] ->
  Forall2 ci w1 m1 -> Forall2 ci u v ->
  word_match w before ((m1 ++ v) ++ rest) = Some (m1 ++ v, rest) ->
  word_match w (rev m1 ++ before) (v ++ rest) <> None ->
  self_overlap w = true.
Proof.
  intros Ew Hw1 Hu H1 H2 Efirst Esecond.
  rewrite word_match_strip in Efirst, Esecond.
  destruct (hash_at before); [done|].
  destruct (xorb (word_at before) _); [|done].
  destruct (strip w ((m1 ++ v) ++ rest)) as [[m0 r0]|]; [|done].
  destruct (xorb (word_at (rev m0 ++ before)) (word_at r0)) eqn:Eend; [|done].
  injection Efirst as -> ->.
  destruct (hash_at (rev m1 ++ before)); [done|].
  destruct (xorb (word_at (rev m1 ++ before)) (word_at (v ++ rest)))
    eqn:Estart; [|done].
  destruct (strip w (v ++ rest)) as [[m2 r2]|] eqn:Es; [|done].
  apply strip_spec in Es as [Hwm2 Em2].
  (* the second occurrence goes beyond [v] *)
  pose proof (Forall2_length _ _ _ Hwm2) as Hl.
  pose proof (Forall2_length _ _ _ H1) as Hl1.
  pose proof (Forall2_length _ _ _ H2) as Hl2.
  assert (Hlw1 : 0 < length w1) by (destruct w1; [done | simpl; lia]).
  assert (Hm2 : exists r1, m2 = v ++ r1 /\ rest = r1 ++ r2 /\ r1 <> []).
  { rewrite Ew, length_app in Hl.
    apply app_eq_inv in Em2 as [(k & -> & _) | (k & -> & ->)].
    - rewrite length_app in Hl2. lia.
    - exists k. split; [done|]. split; [done|]. intros ->.
      rewrite app_nil_r in Hl. lia. }
  destruct Hm2 as (r1 & -> & -> & Hr1).
  apply Forall2_app_inv_r in Hwm2 as (wa & wb & Hwa & Hwb & Ewab).
  pose proof (Forall2_length _ _ _ Hwa) as Hla.
  unfold self_overlap. rewrite Ew at 2.
  apply (overlaps_found w u w1 []); [by rewrite app_nil_r; destruct w1 using rev_ind; [|rewrite rev_app_distr] | done |].
  rewrite app_nil_r. unfold overlap_at.
  apply andb_true_iff. split; [apply andb_true_iff; split|].
  - rewrite <- Estart.
    destruct (ci_rev_context_ne w1 m1 [] before H1 Hw1) as [_ E].
    rewrite app_nil_r in E. rewrite E.
    f_equal. rewrite <- (app_nil_r u) at 1. by apply ci_word_at.
  - rewrite Ewab. by apply (ci_prefix_Forall2 u wa wb v).
  - rewrite <- Eend.
    assert (Hwm : Forall2 ci w (m1 ++ v)) by (rewrite Ew; by apply Forall2_app).
    destruct (ci_rev_context_ne w (m1 ++ v) [] before Hwm Hne) as [_ E].
    rewrite app_nil_r in E. rewrite E. f_equal.
    rewrite Ewab at 1. rewrite drop_app_length'; [|lia].
    assert (Hwb0 : wb <> []) by (intros ->; by inversion Hwb).
    rewrite <- (app_nil_r wb). by apply ci_word_at.
Qed.

Section Other.

Variable w' : jsstring.
Hypothesis Hne' : w' <> [].
Hypothesis Hhash' : hash_free w' = true.

(** Reading the literals of [x] in what the loop returns, after a stretch
    [u] that stands for the stretch [v] of the input up to case: the same
    literals are read in the input, and what is left is again a stretch
    equal up to case followed by what the loop returns further on. *)
Lemma strip_sim x : forall u v fuel before rest mo left,
  Forall2 ci u v -> hash_free x = true -> length rest < fuel ->
  strip x (u ++ loop fuel (rev v ++ before) rest) = Some (mo, left) ->
  exists m u2 v2 fuel2 rest2,
    strip x (v ++ rest) = Some (m, v2 ++ rest2) /\
    Forall2 ci mo m /\ Forall2 ci u2 v2 /\ length rest2 < fuel2 /\
    left = u2 ++ loop fuel2 (rev v2 ++ rev m ++ before) rest2.
Proof.
  induction x as [|c x IH]; intros u v fuel before rest mo left Huv Hx Hlen.
  - cbn [strip]. intros [= <- <-].
    exists [], u, v, fuel, rest. by repeat split.
  - cbn [hash_free forallb] in Hx. apply andb_true_iff in Hx as [Hc Hx].
    destruct Huv as [|uh vh u v Hh Huv].
    + cbn [app rev]. destruct fuel as [|fuel]; [lia|].
      rewrite replace_from_plain by done.
      destruct (word_match w before rest) as [[m0 r0]|] eqn:E.
      * cbn [strip app]. destruct (char_eq true c "#") eqn:Ec; [|done].
        apply ci_hash_l in Ec. by rewrite Ec in Hc.
      * destruct rest as [|h rest]; [done|]. cbn [strip].
        destruct (char_eq true c h) eqn:Ec; [|done].
        destruct (strip x _) as [[m' l']|] eqn:Es; [|done].
        cbn [mbind option_bind]. intros [= <- <-].
        destruct (IH [] [] fuel (h :: before) rest m' l') as
          (m & u2 & v2 & f2 & rest2 & Hs & Hm & H2 & Hl & ->);
          [constructor | done | simpl in Hlen; lia | exact Es |].
        exists (h :: m), u2, v2, f2, rest2. cbn [app] in Hs.
        cbn [app strip]. rewrite ?Ec, Hs. cbn [mbind option_bind rev].
        split; [done|]. split; [constructor; [apply ci_refl | done]|].
        split; [done|]. split; [done|].
        by rewrite <- !app_assoc.
    + cbn [app strip rev]. rewrite <- app_assoc. cbn [app].
      destruct (char_eq true c uh) eqn:Ec; [|done].
      destruct (strip x _) as [[m' l']|] eqn:Es; [|done].
      cbn [mbind option_bind]. intros [= <- <-].
      destruct (IH u v fuel (vh :: before) rest m' l') as
        (m & u2 & v2 & f2 & rest2 & Hs & Hm & H2 & Hl & ->);
        [done | done | done | exact Es |].
      exists (vh :: m), u2, v2, f2, rest2.
      assert (Ecv : char_eq true c vh = true) by by apply (ci_trans _ uh).
      cbn [app strip]. rewrite Ecv, Hs. cbn [mbind option_bind rev].
      split; [done|].
      split; [by constructor|]. split; [done|]. split; [done|].
      by rewrite <- !app_assoc.
Qed.

(** A match of [w'] in what the loop returns stands where a match of [w']
    stood in the input. *)
Lemma sim_match u v fuel before' before rest :
  Forall2 ci u v ->
  hash_at before' = hash_at before -> word_at before' = word_at before ->
  length rest < fuel ->
  word_match w' before' (u ++ loop fuel (rev v ++ before) rest) <> None ->
  word_match w' before (v ++ rest) <> None.
Proof.
  intros Huv Hh Hwd Hlen. rewrite !word_match_strip. rewrite Hh, Hwd.
  destruct (hash_at before); [done|].
  destruct (strip w' (u ++ loop fuel (rev v ++ before) rest))
    as [[mo left]|] eqn:Es; [|by destruct (xorb _ _)].
  assert (Hstart : word_at (u ++ loop fuel (rev v ++ before) rest)
                   = word_at (v ++ rest)).
  { destruct Huv as [|uh vh u v Hc Huv].
    - cbn [app rev] in *.
      destruct (word_match w before rest) as [p|] eqn:E.
      + destruct (loop_at_match fuel before rest p Hlen E) as [X EX].
        rewrite EX in Es. by rewrite strip_hash in Es.
      + by apply loop_word_at.
    - cbn. by apply char_eq_is_word. }
  rewrite Hstart.
  destruct (xorb (word_at before) (word_at (v ++ rest))); [|done].
  destruct (strip_sim w' u v fuel before rest mo left Huv Hhash' Hlen Es)
    as (m & u2 & v2 & f2 & rest2 & Hs & Hm & H2 & Hl & ->).
  rewrite Hs.
  assert (Hmo : mo <> []).
  { apply strip_spec in Es as [Hf _]. intros ->. inversion Hf. by subst. }
  destruct (ci_rev_context_ne mo m before' before Hm Hmo) as [_ Elast].
  rewrite Elast.
  destruct (xorb (word_at (rev m ++ before)) (word_at (u2 ++ _))) eqn:Eend;
    [|done].
  intros _.
  assert (Hgoal : xorb (word_at (rev m ++ before)) (word_at (v2 ++ rest2))
                  = true).
  { destruct H2 as [|uh vh u2 v2 Hc H2].
    - cbn [app rev] in *.
      destruct (word_match w (rev m ++ before) rest2) as [p|] eqn:E.
      + destruct (loop_at_match f2 _ rest2 p Hl E) as [X EX].
        rewrite EX in Eend. cbn [word_at] in Eend.
        change (is_word "#") with false in Eend.
        rewrite xorb_false_r in Eend.
        rewrite word_match_unfold in E.
        destruct (hash_at (rev m ++ before)); [done|].
        rewrite Eend in *.
        by destruct (xorb true (word_at rest2)).
      + by rewrite (loop_word_at f2 _ rest2 Hl E) in Eend.
    - cbn [app word_at] in *. by rewrite <- (char_eq_is_word _ _ Hc). }
  by rewrite Hgoal.
Qed.

Hypothesis Hself : w' = w -> self_overlap w = false.

(** The text written for a match, and what the loop returns after it. *)
Lemma quiet_segment before' before m rest fuel u v :
  Forall2 ci u v -> forall w1 m1,
  Forall2 ci w1 m1 -> w = w1 ++ u -> m = m1 ++ v ->
  word_match w before (m ++ rest) = Some (m, rest) ->
  w' = w \/ quiet (tag_rule w') before (m ++ rest) ->
  length rest < fuel ->
  quiet (tag_rule w') (rev w ++ "#" :: before')
        (loop fuel (rev m ++ before) rest) ->
  quiet (tag_rule w') (rev w1 ++ "#" :: before')
        (u ++ loop fuel (rev m ++ before) rest).
Proof.
  induction 1 as [|uh vh u v Hc Huv IH]; intros w1 m1 H1 Ew Em E Hq Hlen Hrest.
  - rewrite app_nil_r in Ew. by subst w1.
  - cbn [app]. apply quiet_cons.
    + fold (word_match w' (rev w1 ++ "#" :: before')
              (uh :: u ++ loop fuel (rev m ++ before) rest)).
      destruct w1 as [|c0 w1'] eqn:Ew1.
      { apply word_match_tagged. by left. }
      rewrite <- Ew1 in *. assert (Hw1 : w1 <> []) by by rewrite Ew1.
      clear Ew1.
      destruct (word_match w' (rev w1 ++ "#" :: before')
                  (uh :: u ++ loop fuel (rev m ++ before) rest)) eqn:Em';
        [exfalso|done].
      destruct (ci_rev_context_ne w1 m1 ("#" :: before') before H1 Hw1)
        as [Hh Hwd].
      assert (Hin : word_match w' (rev m1 ++ before) ((vh :: v) ++ rest)
                    <> None).
      { apply (sim_match (uh :: u) (vh :: v) fuel
                 (rev w1 ++ "#" :: before')); [by constructor|done|done|done|].
        rewrite app_assoc, <- rev_app_distr, <- Em. cbn [app].
        by rewrite Em'. }
      destruct Hq as [Eq | Hq].
      * subst w'. specialize (Hself eq_refl).
        rewrite (overlap_found w1 (uh :: u) m1 (vh :: v) rest before)
          in Hself; try done.
        -- by constructor.
        -- by rewrite <- Em.
      * apply Hin. apply (Hq m1 ((vh :: v) ++ rest)).
        by rewrite Em, <- app_assoc.
    + specialize (IH (w1 ++ [uh]) (m1 ++ [vh])).
      rewrite rev_app_distr in IH. cbn [rev app] in IH. apply IH; try done.
      * apply Forall2_app; [done | by repeat constructor].
      * by rewrite <- app_assoc.
      * by rewrite <- app_assoc.
Qed.

(** The replacement for [w] leaves no match of [w], and creates no match
    of another word [w'] that had none: the text it returns, read in a
    context that agrees with the input's on the character before, is
    quiet for [w']. *)
Lemma loop_stays_quiet fuel : forall after before before',
  length after < fuel ->
  hash_at before' = hash_at before -> word_at before' = word_at before ->
  w' = w \/ quiet (tag_rule w') before after ->
  quiet (tag_rule w') before' (loop fuel before after).
Proof.
  induction fuel as [|fuel IH]; intros after before before' Hlen Hh Hwd Hq;
    [lia|].
  destruct (word_match w before after) as [[m rest]|] eqn:E.
  - rewrite replace_from_plain by done. rewrite E.
    pose proof (word_match_Forall2 _ _ _ _ _ E) as [Hwm ->].
    assert (Hm : m <> []).
    { intros ->. inversion Hwm. by subst. }
    destruct m as [|x m']; [done|]. set (m := x :: m') in *.
    apply quiet_cons.
    + apply word_match_tagged. right.
      destruct w' as [|c' w0']; [done|]. cbn [ci_prefix].
      cbn [hash_free forallb] in Hhash'.
      apply andb_true_iff in Hhash' as [Hc' _].
      destruct (char_eq true c' "#") eqn:Ec; [|done].
      apply ci_hash_l in Ec. by rewrite Ec in Hc'.
    + assert (Hlen' : length rest < fuel).
      { rewrite length_app in Hlen. subst m. cbn [length] in Hlen. lia. }
      apply (quiet_segment before' before m rest fuel w m Hwm [] []);
        [constructor | done | done | done | done | done |].
      destruct (ci_rev_context_ne w m ("#" :: before') before Hwm Hne)
        as [Hh' Hwd'].
      apply IH; [done | done | done |].
      destruct Hq as [Hq | Hq]; [by left | right]. by apply quiet_app.
  - assert (Hhere : word_match w' before after = None).
    { destruct Hq as [-> | Hq]; [done | by apply quiet_here]. }
    assert (Hout : word_match w' before' (loop (S fuel) before after) = None).
    { destruct (word_match w' before' (loop (S fuel) before after)) eqn:Eo;
        [exfalso|done].
      apply (sim_match [] [] (S fuel) before' before after);
        [constructor | done | done | done | | done].
      cbn [app rev]. by rewrite Eo. }
    rewrite replace_from_plain in * by done. rewrite E in *.
    destruct after as [|c after].
    + by apply quiet_nil.
    + apply quiet_cons; [done|].
      apply IH; [simpl in Hlen; lia | done | done |].
      destruct Hq as [Hq | Hq]; [by left | right]. by apply quiet_tail.
Qed.

End Other.

End StableTags.

Lemma stable_tag_spec tag :
  stable_tag tag = true ->
  bare_word tag <> [] /\ hash_free (bare_word tag) = true /\
  Forall (fun c => c <> "$") ("#" :: bare_word tag) /\
  self_overlap (bare_word tag) = false.
Proof.
  unfold stable_tag.
  intros [[[H1 H2]%andb_true_iff H3]%andb_true_iff H4]%andb_true_iff.
  split; [|split; [done|split]].
  - intros E. by rewrite E in H1.
  - by apply dollar_free_spec.
  - by apply negb_true_iff.
Qed.

Lemma rewrite_tag_stays_quiet tag tag' text :
  stable_tag tag = true -> stable_tag tag' = true ->
  bare_word tag' = bare_word tag \/ quiet (tag_rule (bare_word tag')) [] text ->
  quiet (tag_rule (bare_word tag')) [] (rewrite_tag tag text).
Proof.
  intros (Hne & _ & Hd & Hs)%stable_tag_spec
         (Hne' & Hh' & _ & _)%stable_tag_spec Hq.
  unfold rewrite_tag, replace.
  apply (loop_stays_quiet (bare_word tag) Hd Hne (bare_word tag') Hne' Hh'
           (fun _ => Hs)); [lia | done | done | done].
Qed.

Lemma pass_text_stays_quiet tags tag' text :
  Forall (fun tag => stable_tag tag = true) tags -> stable_tag tag' = true ->
  quiet (tag_rule (bare_word tag')) [] text ->
  quiet (tag_rule (bare_word tag')) [] (pass_text tags text).
Proof.
  intros Htags Htag'. revert text.
  induction Htags as [|tag tags Htag _ IH]; intros text Hq; [done|].
  cbn [pass_text fold_left]. apply IH. apply rewrite_tag_stays_quiet; auto.
Qed.

Lemma pass_text_stable tags text :
  Forall (fun tag => stable_tag tag = true) tags ->
  Forall (fun tag => quiet (tag_rule (bare_word tag)) [] (pass_text tags text))
         tags.
Proof.
  intros Htags. revert text.
  induction Htags as [|tag tags Htag Htags IH]; intros text; [done|].
  cbn [pass_text fold_left]. constructor; [|apply IH].
  apply pass_text_stays_quiet; [done..|].
  apply rewrite_tag_stays_quiet; auto.
Qed.

(** Bare words made of word characters cannot overlap themselves. *)
Lemma word_overlaps w u : forall w1r,
  forallb is_word u = true -> (w1r <> [] -> word_at w1r = true) ->
  overlaps w w1r u = false.
Proof.
  induction u as [|c u IH]; intros w1r Hu Hw1; [done|].
  cbn [forallb] in Hu. apply andb_true_iff in Hu as [Hc Hu].
  cbn [overlaps]. rewrite IH; [|done|by intros _].
  rewrite orb_false_r. destruct w1r as [|y w1r]; [done|].
  unfold overlap_at. rewrite Hw1 by done. cbn [word_at]. by rewrite Hc.
Qed.

Lemma word_tag_stable tag : word_tag tag = true -> stable_tag tag = true.
Proof.
  intros [Hw Hne]%word_tag_spec. unfold stable_tag.
  assert (H1 : jsstring_eqb (bare_word tag) [] = false)
    by by apply jsstring_eqb_neq.
  assert (H2 : hash_free (bare_word tag) = true).
  { apply forallb_forall. intros c Hc. apply negb_true_iff, is_word_not_hash.
    rewrite forallb_forall in Hw. by apply Hw. }
  assert (H3 : dollar_free tag = true).
  { apply forallb_forall. intros c Hc.
    apply negb_true_iff, Ascii.eqb_neq, is_word_not_dollar.
    rewrite forallb_forall in Hw. by apply Hw. }
  assert (H4 : self_overlap (bare_word tag) = false)
    by by apply word_overlaps.
  by rewrite H1, H2, H3, H4.
Qed.

(** C4 (as stated, refuted).  With the tag [#a-a], whose bare word ends
    with what it starts with, the pass on [a-a-a] gives [#a-a-a], and the
    pass on that text tags the second, overlapping occurrence and gives
    [#a-#a-a]: the pass is not idempotent on every tag set. *)
Lemma rewrite_twice_differs :
  RewriteEngine [str "#a-a"] (str "a-a-a") = Some (str "#a-a-a", true) /\
  RewriteEngine [str "#a-a"] (str "#a-a-a") = Some (str "#a-#a-a", true).
Proof. split; reflexivity. Qed.

(** The other bare words that the statement below leaves out, each with a
    pass that is not idempotent: an empty bare word, a bare word with [#],
    a bare word with [$]. *)
Lemma second_pass_changes_more :
  (RewriteEngine [str "#"] (str "a") = Some (str "#a#", true) /\
   RewriteEngine [str "#"] (str "#a#") = Some (str "#a##", true)) /\
  (RewriteEngine [str "#+#y"; str "#y"] (str "a+y") =
     Some (str "a+#y", true) /\
   RewriteEngine [str "#+#y"; str "#y"] (str "a+#y") =
     Some (str "a#+#y", true)) /\
  (RewriteEngine [str "#a-$&"] (str "a-$&b") =
     Some (str "#a-a-$&b", true) /\
   RewriteEngine [str "#a-$&"] (str "#a-a-$&b") =
     Some (str "#a-#a-a-$&b", true)).
Proof. repeat split; reflexivity. Qed.

(** C4 (amended).  For every text and every tag set in which each bare word
    is not empty, has neither [#] nor [$], and cannot overlap itself, the
    pass returns a text that a second pass leaves unchanged, reporting
    [changed = false].  Bare words of letters, digits and underscores are
    such words, and so are [to-do] and [area/work]. *)
Theorem rewrite_idempotent_stable_tags tags text :
  Forall (fun tag => stable_tag tag = true) tags ->
  exists text' changed,
    RewriteEngine tags text = Some (text', changed) /\
    RewriteEngine tags text' = Some (text', false).
Proof.
  intros Htags. exists (pass_text tags text), (pass_flag tags text false).
  split; [apply RewriteEngine_total|].
  rewrite RewriteEngine_total.
  destruct (pass_quiet tags (pass_text tags text) false) as [-> ->]; [|done].
  by apply pass_text_stable.
Qed.

(** The amended C4 on tags with a hyphen, a slash and an underscore. *)
Lemma rewrite_idempotent_stable_tags_witness :
  Forall (fun tag => stable_tag tag = true)
         [str "#to-do"; str "#area/work"; str "#do"; str "#Todo_1"] /\
  exists text' changed,
    RewriteEngine [str "#to-do"; str "#area/work"; str "#do"; str "#Todo_1"]
                  (str "To-do: do area/work, todo_1 and to-do-to-do") =
      Some (text', changed) /\
    RewriteEngine [str "#to-do"; str "#area/work"; str "#do"; str "#Todo_1"]
                  text' = Some (text', false).
Proof.
  split; [repeat constructor|].
  apply (rewrite_idempotent_stable_tags
           [str "#to-do"; str "#area/work"; str "#do"; str "#Todo_1"]).
  repeat constructor.
Defined.

(** X3.  For every registry and every text the pass returns normally, and
    it reports [changed = false] only with the text it was given. *)
Theorem RewriteEngine_never_throws tags text :
  exists text' changed,
    RewriteEngine tags text = Some (text', changed) /\
    (changed = true \/ text' = text).
Proof.
  exists (pass_text tags text), (pass_flag tags text false).
  split; [apply RewriteEngine_total|].
  destruct (pass_flag tags text false) eqn:E; [by left | right].
  by apply pass_flag_false.
Qed.

(** The letters of the Latin-1 Supplement are folded as the ASCII letters
    are: with the tag [#M\u00DCNCHEN] the bare word is [m\u00FCnchen], and the
    word [M\u00FCnchen] of the text is rewritten to the tag in lower case. *)
Lemma latin1_letters_fold :
  bare_word tag_MUNCHEN = str "m" ++ [ascii_of_nat 252] ++ str "nchen" /\
  occurs_untagged (bare_word tag_MUNCHEN) false text_Munchen = true /\
  RewriteEngine [tag_MUNCHEN] text_Munchen =
  Some (str "#m" ++ [ascii_of_nat 252] ++ str "nchen ist", true).
Proof. split_and!; reflexivity. Qed.

(** X4.  On the strings of the embedding (code units below 256), with tags
    whose bare words have no dollar sign, the pass only inserts [#]
    characters and changes the case of letters: the text it returns and
    the text it was given are the same once every [#] is removed and every
    letter put in lower case. *)
Theorem rewrite_keeps_skeleton tags text :
  Forall (fun tag => dollar_free tag = true) tags ->
  exists text' changed,
    RewriteEngine tags text = Some (text', changed) /\
    skeleton text' = skeleton text.
Proof.
  intros Htags. exists (pass_text tags text), (pass_flag tags text false).
  split; [apply RewriteEngine_total|]. revert text.
  induction Htags as [|tag tags Htag _ IH]; intros text; [done|].
  cbn [pass_text fold_left]. fold (pass_text tags (rewrite_tag tag text)).
  by rewrite IH, rewrite_tag_skeleton.
Qed.

Lemma rewrite_keeps_skeleton_witness :
  Forall (fun tag => dollar_free tag = true) [str "#c++"; str "#Project"] /\
  exists text' changed,
    RewriteEngine [str "#c++"; str "#Project"] (str "PROJECT in c++11") =
      Some (text', changed) /\
    skeleton text' = skeleton (str "PROJECT in c++11").
Proof.
  split; [by repeat constructor|].
  apply (rewrite_keeps_skeleton [str "#c++"; str "#Project"]).
  by repeat constructor.
Defined.

(** X5.  With tags whose bare words have no dollar sign, the pass never
    shortens the text; it reports [changed = true] exactly when the text
    it returns is longer than the text it was given, and [changed = false]
    exactly when it returns that text itself. *)
Theorem rewrite_grows tags text :
  Forall (fun tag => dollar_free tag = true) tags ->
  exists text' changed,
    RewriteEngine tags text = Some (text', changed) /\
    length text <= length text' /\
    (changed = true <-> length text < length text') /\
    (changed = false <-> text' = text).
Proof.
  intros Htags. exists (pass_text tags text), (pass_flag tags text false).
  pose proof (pass_text_length tags text Htags) as Hle.
  pose proof (pass_flag_length tags text false Htags) as Hflag.
  cbn [orb] in Hflag.
  split; [apply RewriteEngine_total|]. split; [done|]. split.
  - rewrite Hflag, negb_true_iff, Nat.eqb_neq. lia.
  - split; [apply pass_flag_false|]. intros E.
    rewrite Hflag, E, Nat.eqb_refl. done.
Qed.

Lemma rewrite_grows_witness :
  Forall (fun tag => dollar_free tag = true) [str "#a-a"; str "#"] /\
  exists text' changed,
    RewriteEngine [str "#a-a"; str "#"] (str "a-a-a b") =
      Some (text', changed) /\
    length (str "a-a-a b") <= length text' /\
    (changed = true <-> length (str "a-a-a b") < length text') /\
    (changed = false <-> text' = str "a-a-a b").
Proof.
  split; [by repeat constructor|].
  apply (rewrite_grows [str "#a-a"; str "#"]).
  by repeat constructor.
Defined.

(** * Further properties of processFile and of the scan *)

(** The five ways a call of [processFile] ends. *)
Lemma processFile_cases file s :
  (String_includes (extension file) (str "md") = false /\
   processFile file s = (inr tt, s)) \/
  (String_includes (extension file) (str "md") = true /\
   (path file ∈ unreadable s \/ contents s !! path file = None) /\
   processFile file s =
   (inr tt, emit (EvError (error_message file)) (emit (EvRead (path file)) s)))
  \/
  (exists c,
     String_includes (extension file) (str "md") = true /\
     (path file ∉ unreadable s) /\ contents s !! path file = Some c /\
     ((pass_flag (tags s) c false = false /\
       processFile file s = (inr tt, emit (EvRead (path file)) s)) \/
      (pass_flag (tags s) c false = true /\ path file ∈ unwritable s /\
       processFile file s =
       (inr tt,
        emit (EvError (error_message file))
             (emit (EvModify (path file) (pass_text (tags s) c))
                   (emit (EvRead (path file)) s)))) \/
      (pass_flag (tags s) c false = true /\ (path file ∉ unwritable s) /\
       processFile file s =
       (inr tt,
        emit (EvLog (tagged_message file))
             (set_contents
                (<[path file := pass_text (tags s) c]> (contents s))
                (emit (EvModify (path file) (pass_text (tags s) c))
                      (emit (EvRead (path file)) s))))))).
Proof.
  unfold processFile.
  destruct (String_includes (extension file) (str "md")); cbn [negb];
    [|by left].
  right. unfold try_catch, mbind, M_bind, bind, vault_read, this_tags.
  destruct (decide (path file ∈ unreadable s)) as [Hr | Hr].
  { left. split; [done|]. split; [by left | done]. }
  destruct (contents s !! path file) as [c|] eqn:Ec.
  2:{ left. split; [done|]. split; [by right | done]. }
  right. exists c. split; [done|]. split; [done|]. split; [done|].
  cbn [emit tags]. rewrite RewriteEngine_total.
  destruct (pass_flag (tags s) c false) eqn:Ef; [|by left].
  right. unfold vault_modify, console_log, console_error. cbn [emit unwritable].
  destruct (decide (path file ∈ unwritable s)) as [Hw | Hw]; [by left | by right].
Qed.

Lemma new_events_emit1 s e : new_events s (emit e s) = [e].
Proof. unfold new_events. cbn. by rewrite drop_app_length. Qed.

Lemma new_events_app s s' evs :
  trace s' = trace s ++ evs -> new_events s s' = evs.
Proof. unfold new_events. intros ->. by rewrite drop_app_length. Qed.

Lemma processFile_calls file s :
  (processFile file s).1 = inr tt /\
  length (List.filter is_modify (new_events s (processFile file s).2)) <= 1 /\
  (forall q, q <> path file ->
     contents (processFile file s).2 !! q = contents s !! q) /\
  (forall q data,
     EvModify q data ∈ new_events s (processFile file s).2 ->
     q = path file /\
     String_includes (extension file) (str "md") = true /\
     (path file ∉ unreadable s) /\
     exists c, contents s !! q = Some c /\
               RewriteEngine (tags s) c = Some (data, true)).
Proof.
  assert (Hnone : forall evs : list event,
            List.filter is_modify evs = [] ->
            forall q data, EvModify q data ∈ evs -> False).
  { intros evs Hevs q data H%list_elem_of_In.
    assert (Hin : In (EvModify q data) (List.filter is_modify evs))
      by by apply filter_In.
    by rewrite Hevs in Hin. }
  destruct (processFile_cases file s)
    as [[_ ->] | [(_ & _ & ->) | (c & Hmd & Hur & Hc &
          [[Hf ->] | [(Hf & _ & ->) | (Hf & _ & ->)]])]];
    cbn [fst snd].
  - unfold new_events. rewrite drop_all. split_and!; try done; [cbn; lia|].
    intros q data H. by destruct (Hnone [] eq_refl q data H).
  - rewrite (new_events_app s _ [EvRead (path file);
                                 EvError (error_message file)])
      by (cbn; by rewrite <- app_assoc).
    split_and!; try done; [cbn; lia|].
    intros q data H.
    by destruct (Hnone [EvRead (path file); EvError (error_message file)]
                       eq_refl q data H).
  - rewrite new_events_emit1. split_and!; try done; [cbn; lia|].
    intros q data H. by destruct (Hnone [EvRead (path file)] eq_refl q data H).
  - rewrite (new_events_app s _ [EvRead (path file);
                                 EvModify (path file) (pass_text (tags s) c);
                                 EvError (error_message file)])
      by (cbn; by rewrite <- !app_assoc).
    split_and!; try done.
    intros q data H. apply elem_of_cons in H as [H | H]; [done|].
    apply elem_of_cons in H as [[= -> ->] | H].
    + split_and!; try done. exists c. split; [done|].
      by rewrite RewriteEngine_total, Hf.
    + by destruct (Hnone [EvError (error_message file)] eq_refl q data H).
  - rewrite (new_events_app s _ [EvRead (path file);
                                 EvModify (path file) (pass_text (tags s) c);
                                 EvLog (tagged_message file)])
      by (cbn; by rewrite <- !app_assoc).
    split_and!; try done.
    + intros q Hq. cbn. by rewrite lookup_insert_ne.
    + intros q data H. apply elem_of_cons in H as [H | H]; [done|].
      apply elem_of_cons in H as [[= -> ->] | H].
      * split_and!; try done. exists c. split; [done|].
        by rewrite RewriteEngine_total, Hf.
      * by destruct (Hnone [EvLog (tagged_message file)] eq_refl q data H).
Qed.

(** X6.  A call of [processFile] always returns normally; it calls
    [vault.modify] at most once, always for the file it was given, always
    with the full text the rewrite pass returned for the content it read
    and only when that pass reported a change; and it leaves the content
    of every other file as it was. *)
Theorem processFile_writes file s :
  (processFile file s).1 = inr tt /\
  length (List.filter is_modify (new_events s (processFile file s).2)) <= 1 /\
  (forall q, q <> path file ->
     contents (processFile file s).2 !! q = contents s !! q) /\
  (forall q data,
     EvModify q data ∈ new_events s (processFile file s).2 ->
     q = path file /\
     exists c, contents s !! q = Some c /\
               RewriteEngine (tags s) c = Some (data, true)).
Proof.
  destruct (processFile_calls file s) as (H1 & H2 & H3 & H4).
  split_and!; try done.
  intros q data H. destruct (H4 q data H) as (Hq & _ & _ & Hc). done.
Qed.

Lemma processFile_writes_witness :
  EvModify (str "A.md") (str "my #project")
    ∈ new_events three_notes
        (processFile (mkTFile (str "A.md") (str "A") (str "md")) three_notes).2
  /\
  str "A.md" = path (mkTFile (str "A.md") (str "A") (str "md")) /\
  exists c, contents three_notes !! str "A.md" = Some c /\
            RewriteEngine (tags three_notes) c =
            Some (str "my #project", true).
Proof.
  assert (H : EvModify (str "A.md") (str "my #project")
                ∈ new_events three_notes
                    (processFile (mkTFile (str "A.md") (str "A") (str "md"))
                                 three_notes).2).
  { vm_compute. apply elem_of_cons. right. by left. }
  split; [exact H|].
  destruct (processFile_writes (mkTFile (str "A.md") (str "A") (str "md"))
                               three_notes) as (_ & _ & _ & Hw).
  exact (Hw _ _ H).
Defined.

(** The content of every path after a call of [processFile]. *)
Lemma processFile_lookup file s q :
  contents (processFile file s).2 !! q =
  if decide (q = path file)
  then if file_ok file s then pass_text (tags s) <$> contents s !! q
       else contents s !! q
  else contents s !! q.
Proof.
  unfold file_ok.
  destruct (processFile_cases file s)
    as [[Hmd ->] | [(Hmd & Hfail & ->) | (c & Hmd & Hur & Hc &
          [[Hf ->] | [(Hf & Huw & ->) | (Hf & Huw & ->)]])]];
    cbn [fst snd emit set_contents contents]; rewrite Hmd; cbn [andb].
  - by destruct (decide _).
  - destruct (decide (q = path file)) as [-> | Hq]; [|done].
    destruct Hfail as [Hur | Hnone].
    + by rewrite (bool_decide_eq_false_2 _ (fun H => H Hur)).
    + rewrite Hnone. by destruct (_ && _).
  - destruct (decide (q = path file)) as [-> | Hq]; [|done].
    rewrite Hc. cbn. rewrite (pass_flag_false _ _ Hf). by destruct (_ && _).
  - destruct (decide (q = path file)) as [-> | Hq]; [|done].
    rewrite (bool_decide_eq_false_2 (path file ∉ unwritable s))
      by (intros H; by apply H).
    by rewrite andb_false_r.
  - destruct (decide (q = path file)) as [-> | Hq].
    + rewrite lookup_insert_eq, Hc. cbn.
      by rewrite !bool_decide_eq_true_2.
    + by rewrite lookup_insert_ne.
Qed.

Lemma processFile_frame file s :
  files (processFile file s).2 = files s /\
  unreadable (processFile file s).2 = unreadable s /\
  unwritable (processFile file s).2 = unwritable s /\
  tags (processFile file s).2 = tags s.
Proof.
  destruct (processFile_effect file s) as (_ & H1 & H2 & H3 & H4 & _). done.
Qed.

Lemma file_ok_processFile g file s :
  file_ok g (processFile file s).2 = file_ok g s.
Proof.
  destruct (processFile_frame file s) as (_ & Hur & Huw & _).
  unfold file_ok. by rewrite Hur, Huw.
Qed.

(** For tags made of word characters a second pass changes nothing. *)
Lemma pass_text_idempotent tags text :
  Forall (fun tag => word_tag tag = true) tags ->
  pass_text tags (pass_text tags text) = pass_text tags text /\
  pass_flag tags (pass_text tags text) false = false.
Proof. intros Htags. by apply pass_quiet, pass_text_quiet. Qed.

(** X7.  With a registry of tags made of word characters, the write of
    [processFile] settles the file: a second call for the same file leaves
    every content as the first call left it, and, unless a write was
    rejected, does not call [vault.modify] again. *)
Theorem processFile_settles file s :
  Forall (fun tag => word_tag tag = true) (tags s) ->
  contents (processFile file (processFile file s).2).2 =
    contents (processFile file s).2 /\
  (path file ∈ unwritable s \/
   List.filter is_modify
     (new_events (processFile file s).2
                 (processFile file (processFile file s).2).2) = []).
Proof.
  intros Htags.
  destruct (processFile_frame file s) as (_ & Hur & Huw & Htg).
  split.
  - apply map_eq. intros q. rewrite !(processFile_lookup file _ q).
    rewrite file_ok_processFile, Htg.
    destruct (decide (q = path file)) as [-> | Hq]; [|done].
    destruct (file_ok file s); [|done].
    destruct (contents s !! path file) as [c|]; [|done]. cbn.
    by destruct (pass_text_idempotent (tags s) c Htags) as [-> _].
  - destruct (decide (path file ∈ unwritable s)) as [Hw | Hw]; [by left|].
    right.
    destruct (List.filter is_modify _) as [|e evs] eqn:E; [done|].
    exfalso.
    assert (He : In e (List.filter is_modify
                         (new_events (processFile file s).2
                            (processFile file (processFile file s).2).2)))
      by (rewrite E; by left).
    apply filter_In in He as [He Hm]. destruct e as [|q data| |]; try done.
    apply list_elem_of_In in He.
    destruct (processFile_calls file (processFile file s).2)
      as (_ & _ & _ & H4).
    destruct (H4 q data He) as (-> & Hmd & Hr & c1 & Hc1 & Hrw).
    rewrite Hur in Hr. rewrite Htg in Hrw.
    rewrite processFile_lookup in Hc1.
    destruct (decide (path file = path file)); [|done].
    assert (Hok : file_ok file s = true).
    { unfold file_ok. by rewrite Hmd, !bool_decide_eq_true_2. }
    rewrite Hok in Hc1.
    destruct (contents s !! path file) as [c|]; [|done].
    cbn in Hc1. injection Hc1 as <-.
    rewrite RewriteEngine_total in Hrw.
    destruct (pass_text_idempotent (tags s) c Htags) as [_ Hf].
    congruence.
Qed.

Lemma processFile_settles_witness :
  Forall (fun tag => word_tag tag = true) (tags three_notes) /\
  contents (processFile (mkTFile (str "A.md") (str "A") (str "md"))
              (processFile (mkTFile (str "A.md") (str "A") (str "md"))
                           three_notes).2).2 =
  contents (processFile (mkTFile (str "A.md") (str "A") (str "md"))
                        three_notes).2.
Proof.
  assert (H : Forall (fun tag => word_tag tag = true) (tags three_notes))
    by by repeat constructor.
  split; [exact H|].
  by destruct (processFile_settles
                 (mkTFile (str "A.md") (str "A") (str "md")) three_notes H).
Defined.

Lemma for_each_frame fs s :
  (for_each fs processFile s).1 = inr tt /\
  files (for_each fs processFile s).2 = files s /\
  unreadable (for_each fs processFile s).2 = unreadable s /\
  unwritable (for_each fs processFile s).2 = unwritable s /\
  tags (for_each fs processFile s).2 = tags s.
Proof.
  destruct (for_each_processFile fs s) as (H0 & H1 & H2 & H3 & H4 & _). done.
Qed.

(** The content of every path after the loop of the scan. *)
Lemma for_each_lookup fs : forall s q,
  NoDup (path <$> fs) ->
  contents (for_each fs processFile s).2 !! q =
  match List.find (fun f => bool_decide (path f = q)) fs with
  | Some f => if file_ok f s then pass_text (tags s) <$> contents s !! q
              else contents s !! q
  | None => contents s !! q
  end.
Proof.
  induction fs as [|f fs IH]; intros s q Hnd; [done|].
  rewrite fmap_cons in Hnd. apply NoDup_cons in Hnd as [Hnot Hnd].
  cbn [for_each List.find]. unfold mbind, M_bind, bind.
  destruct (processFile_calls f s) as (H1 & _).
  destruct (processFile_frame f s) as (_ & _ & _ & Htg).
  pose proof (processFile_lookup f s q) as Hl.
  pose proof (fun g => file_ok_processFile g f s) as Hok.
  destruct (processFile f s) as [r s1]. cbn [fst snd] in *. subst r.
  rewrite IH by done. clear IH.
  destruct (decide (q = path f)) as [-> | Hq].
  - rewrite bool_decide_eq_true_2 by done.
    destruct (List.find _ fs) as [g|] eqn:Eg; [|done].
    apply find_some in Eg as [Hg Hp%bool_decide_eq_true].
    exfalso. apply Hnot. rewrite <- Hp.
    by apply list_elem_of_fmap_2, list_elem_of_In.
  - rewrite bool_decide_eq_false_2 by done.
    destruct (List.find _ fs) as [g|]; [|done].
    by rewrite Hok, Htg, Hl.
Qed.

Lemma processAllFiles_unfold s :
  processAllFiles s =
  (inr tt,
   emit (EvLog (str "Auto Tag Words: No more snooping to be done"))
        (for_each (getMarkdownFiles s) processFile
           (emit
              (EvLog (str "Auto Tag Words: Snooping through your files..."))
              s)).2).
Proof.
  unfold processAllFiles, mbind, M_bind, bind, console_log,
    this_markdown_files.
  set (s0 := emit _ s). change (getMarkdownFiles s0) with (getMarkdownFiles s).
  destruct (for_each_frame (getMarkdownFiles s) s0) as (H1 & _).
  destruct (for_each (getMarkdownFiles s) processFile s0) as [r s1].
  cbn in H1. by subst r.
Qed.

Lemma processAllFiles_frame s :
  files (processAllFiles s).2 = files s /\
  unreadable (processAllFiles s).2 = unreadable s /\
  unwritable (processAllFiles s).2 = unwritable s /\
  tags (processAllFiles s).2 = tags s.
Proof.
  rewrite processAllFiles_unfold. cbn [snd emit files unreadable unwritable tags].
  destruct (for_each_frame (getMarkdownFiles s)
              (emit (EvLog (str "Auto Tag Words: Snooping through your files..."))
                    s)) as (_ & H1 & H2 & H3 & H4).
  done.
Qed.

Lemma processAllFiles_lookup s q :
  NoDup (path <$> getMarkdownFiles s) ->
  contents (processAllFiles s).2 !! q =
  match List.find (fun f => bool_decide (path f = q)) (getMarkdownFiles s) with
  | Some f => if file_ok f s then pass_text (tags s) <$> contents s !! q
              else contents s !! q
  | None => contents s !! q
  end.
Proof.
  intros Hnd. rewrite processAllFiles_unfold. cbn [snd emit contents].
  by rewrite for_each_lookup.
Qed.

(** X8.  With a registry of tags made of word characters and markdown
    files of distinct paths, a scan of all files settles the vault: a
    second scan leaves every content as the first scan left it. *)
Theorem processAllFiles_settles s :
  NoDup (path <$> getMarkdownFiles s) ->
  Forall (fun tag => word_tag tag = true) (tags s) ->
  contents (processAllFiles (processAllFiles s).2).2 =
  contents (processAllFiles s).2.
Proof.
  intros Hnd Htags.
  destruct (processAllFiles_frame s) as (Hfiles & Hur & Huw & Htg).
  assert (Hmd : getMarkdownFiles (processAllFiles s).2 = getMarkdownFiles s)
    by (unfold getMarkdownFiles; by rewrite Hfiles).
  apply map_eq. intros q.
  rewrite (processAllFiles_lookup (processAllFiles s).2) by by rewrite Hmd.
  rewrite Hmd, Htg, processAllFiles_lookup by done.
  destruct (List.find _ (getMarkdownFiles s)) as [f|]; [|done].
  assert (Hok : file_ok f (processAllFiles s).2 = file_ok f s)
    by (unfold file_ok; by rewrite Hur, Huw).
  rewrite Hok. destruct (file_ok f s); [|done].
  destruct (contents s !! q) as [c|]; [|done]. cbn.
  by destruct (pass_text_idempotent (tags s) c Htags) as [-> _].
Qed.

Lemma processAllFiles_settles_witness :
  (NoDup (path <$> getMarkdownFiles three_notes) /\
   Forall (fun tag => word_tag tag = true) (tags three_notes)) /\
  contents (processAllFiles (processAllFiles three_notes).2).2 =
  contents (processAllFiles three_notes).2.
Proof.
  assert (Hnd : NoDup (path <$> getMarkdownFiles three_notes)).
  { apply (bool_decide_unpack _). by vm_compute. }
  assert (Htags : Forall (fun tag => word_tag tag = true) (tags three_notes))
    by by repeat constructor.
  split; [done|]. exact (processAllFiles_settles three_notes Hnd Htags).
Defined.

(** * Further properties: convertWordsToTags *)

Lemma RewriteEngine_single tag text :
  RewriteEngine [tag] text =
  Some (rewrite_tag tag text, negb (jsstring_eqb (rewrite_tag tag text) text)).
Proof. by rewrite RewriteEngine_total. Qed.

Lemma convert_step_total text e changed tag :
  convert_step text (e, changed) tag =
  Some (if negb (jsstring_eqb (rewrite_tag tag text) text)
        then (mkEditor (rewrite_tag tag text), true)
        else (e, changed)).
Proof.
  unfold convert_step. fold (bare_word tag).
  rewrite tag_pattern_compiles. cbn [mbind option_bind].
  fold (rewrite_tag tag text). by destruct (negb _).
Qed.

Lemma convert_loop_last text tags : forall e changed,
  exists e' changed',
    convert_loop text tags (e, changed) = Some (e', changed') /\
    ((e' = e /\
      Forall (fun tag => RewriteEngine [tag] text = Some (text, false)) tags) \/
     (exists pre tag post text',
        tags = pre ++ tag :: post /\
        RewriteEngine [tag] text = Some (text', true) /\
        Forall (fun t => RewriteEngine [t] text = Some (text, false)) post /\
        e' = mkEditor text')).
Proof.
  induction tags as [|tag tags IH]; intros e changed.
  { exists e, changed. split; [done|]. by left. }
  cbn [convert_loop]. rewrite convert_step_total. cbn [mbind option_bind].
  destruct (jsstring_eqb (rewrite_tag tag text) text) eqn:E; cbn [negb].
  - apply jsstring_eqb_eq in E.
    destruct (IH e changed) as (e' & ch' & -> & [[-> Hall] | Hlast]).
    + exists e, ch'. split; [done|]. left. split; [done|].
      constructor; [|done]. by rewrite RewriteEngine_single, E, jsstring_eqb_refl.
    + destruct Hlast as (pre & t & post & text' & -> & Ht & Hpost & ->).
      exists (mkEditor text'), ch'. split; [done|]. right.
      by exists (tag :: pre), t, post, text'.
  - destruct (IH (mkEditor (rewrite_tag tag text)) true)
      as (e' & ch' & -> & [[-> Hall] | Hlast]).
    + exists (mkEditor (rewrite_tag tag text)), ch'. split; [done|]. right.
      exists [], tag, tags, (rewrite_tag tag text). split_and!; try done.
      by rewrite RewriteEngine_single, E.
    + destruct Hlast as (pre & t & post & text' & -> & Ht & Hpost & ->).
      exists (mkEditor text'), ch'. split; [done|]. right.
      by exists (tag :: pre), t, post, text'.
Qed.

(** X9.  [convertWordsToTags] never throws, and the editor ends either
    untouched, when no tag of the registry changes its text, or with the
    replacement of one tag alone, applied to the text as it was before the
    call: the last tag of the registry whose replacement changes that
    text.  What earlier tags replaced is not kept. *)
Theorem convertWordsToTags_keeps_last tags editor :
  exists editor',
    convertWordsToTags tags editor = Some editor' /\
    ((editor' = editor /\
      Forall (fun tag => RewriteEngine [tag] (getValue editor) =
                         Some (getValue editor, false)) tags) \/
     (exists pre tag post text',
        tags = pre ++ tag :: post /\
        RewriteEngine [tag] (getValue editor) = Some (text', true) /\
        Forall (fun t => RewriteEngine [t] (getValue editor) =
                         Some (getValue editor, false)) post /\
        editor' = mkEditor text')).
Proof.
  unfold convertWordsToTags.
  destruct (convert_loop_last (getValue editor) tags editor false)
    as (e' & ch' & -> & H).
  by exists e'.
Qed.

(** X10.  With a single tag in the registry the two rewrites agree: the
    editor ends with the text that the pass of [processFile] returns. *)
Theorem convertWordsToTags_single_tag tag text :
  exists text' changed,
    RewriteEngine [tag] text = Some (text', changed) /\
    convertWordsToTags [tag] (mkEditor text) = Some (mkEditor text').
Proof.
  exists (rewrite_tag tag text),
         (negb (jsstring_eqb (rewrite_tag tag text) text)).
  split; [apply RewriteEngine_single|].
  unfold convertWordsToTags. cbn [convert_loop getValue].
  rewrite convert_step_total.
  destruct (jsstring_eqb (rewrite_tag tag text) text) eqn:E; [|done].
  apply jsstring_eqb_eq in E. by rewrite E.
Qed.

(** * Further properties: the handlers and their timers *)

Lemma filter_ext_in {A} (P1 P2 : A -> Prop)
    `{!forall x, Decision (P1 x)} `{!forall x, Decision (P2 x)} (l : list A) :
  (forall x, x ∈ l -> P1 x <-> P2 x) -> filter P1 l = filter P2 l.
Proof.
  induction l as [|x l IH]; intros Hl; [done|].
  rewrite !filter_cons.
  assert (Hx : P1 x <-> P2 x) by (apply Hl; by left).
  rewrite IH by (intros y Hy; apply Hl; by right).
  destruct (decide (P1 x)), (decide (P2 x)); tauto || done.
Qed.




(** What a fired timer changes. *)
Lemma fire_fields t p :
  timers (fire t p) = filter (fun u => handle u <> handle t) (timers p) /\
  timeout (fire t p) = timeout p /\
  next_handle (fire t p) = next_handle p /\
  tags (plugin_app (fire t p)) = tags (plugin_app p) /\
  (is_convert t = false -> editors (fire t p) = editors p).
Proof.
  unfold fire, call, is_convert. destruct (timer_callback t) as [file|e].
  - cbn. destruct (processFile_frame file (plugin_app p)) as (_ & _ & _ & H).
    by rewrite H.
  - cbn [set_now set_timers editors plugin_app timers timeout next_handle].
    destruct (editors p !! e) as [ed|]; [|done].
    by destruct (convertWordsToTags _ ed).
Qed.


Lemma debounced_sub (p q : plugin) :
  debounced p ->
  timers q `sublist_of` timers p ->
  timeout q = timeout p -> next_handle q = next_handle p ->
  debounced q.
Proof.
  intros (Hnd & Hlt & Hto & Hiff) Hsub Ht Hn.
  unfold debounced. rewrite Ht, Hn. split_and!.
  - eapply sublist_NoDup; [exact Hnd|]. by apply fmap_sublist.
  - apply Forall_forall. intros x Hx. rewrite Forall_forall in Hlt.
    by apply Hlt, (sublist_subseteq _ _ Hsub).
  - done.
  - apply Forall_forall. intros x Hx. rewrite Forall_forall in Hiff.
    by apply Hiff, (sublist_subseteq _ _ Hsub).
Qed.

Lemma debounced_fire t p : debounced p -> debounced (fire t p).
Proof.
  intros H. destruct (fire_fields t p) as (Ht & Hto & Hn & _).
  apply (debounced_sub p); [done| |done..].
  rewrite Ht. apply sublist_filter.
Qed.

(** Pending timers with the same handle are the same timer. *)
Lemma handle_inj ts u t :
  NoDup (handle <$> ts) -> u ∈ ts -> t ∈ ts -> handle u = handle t -> u = t.
Proof.
  intros Hnd Hu Ht E.
  destruct (list_elem_of_lookup_1 _ _ Hu) as [i Hi].
  destruct (list_elem_of_lookup_1 _ _ Ht) as [j Hj].
  assert (i = j).
  { apply (NoDup_lookup _ _ _ (handle u) Hnd).
    - by rewrite list_lookup_fmap, Hi.
    - by rewrite list_lookup_fmap, Hj, E. }
  congruence.
Qed.


Lemma filter_nil_in {A} (P : A -> Prop) `{!forall x, Decision (P x)}
    (l : list A) :
  (forall x, x ∈ l -> ~ P x) -> filter P l = [].
Proof.
  intros Hl. destruct (filter P l) as [|x k] eqn:E; [done|].
  assert (Hx : x ∈ filter P l) by (rewrite E; by left).
  apply list_elem_of_filter in Hx as [HP Hx]. by destruct (Hl x Hx).
Qed.

Lemma filter_all_in {A} (P : A -> Prop) `{!forall x, Decision (P x)}
    (l : list A) :
  (forall x, x ∈ l -> P x) -> filter P l = l.
Proof.
  induction l as [|x l IH]; intros Hl; [done|].
  rewrite filter_cons_True by (apply Hl; by left).
  f_equal. apply IH. intros y Hy. apply Hl. by right.
Qed.



(** The pending timers after an editor change: the pending conversion, if
    any, is gone, and the new one is the last. *)
Lemma on_editor_change_fields e p :
  debounced p ->
  timers (on_editor_change e p) =
    filter (fun t => is_convert t = false) (timers p) ++
    [mkTimer (next_handle p) (now p + 800) (CallConvert e)] /\
  timeout (on_editor_change e p) = Some (next_handle p) /\
  next_handle (on_editor_change e p) = S (next_handle p) /\
  now (on_editor_change e p) = now p /\
  editors (on_editor_change e p) = editors p /\
  plugin_app (on_editor_change e p) = plugin_app p.
Proof.
  intros (Hnd & Hlt & Hto & Hiff). rewrite Forall_forall in Hiff.
  unfold on_editor_change. destruct (timeout p) as [h|] eqn:Et; cbn.
  - split_and!; try done. f_equal. apply filter_ext_in.
    intros t Ht. split.
    + intros Hne. destruct (is_convert t) eqn:Hc; [|done].
      apply (Hiff t Ht) in Hc. congruence.
    + intros Hc Heq.
      assert (is_convert t = true) by (apply (Hiff t Ht); by rewrite Heq).
      congruence.
  - split_and!; try done. f_equal. symmetry. apply filter_all_in.
    intros t Ht. destruct (is_convert t) eqn:Hc; [|done].
    by apply (Hiff t Ht) in Hc.
Qed.

Lemma debounced_same (p q : plugin) :
  debounced p -> timers q = timers p -> timeout q = timeout p ->
  next_handle q = next_handle p -> debounced q.
Proof.
  intros H Ht Hto Hn. apply (debounced_sub p); [done| |done..].
  by rewrite Ht.
Qed.

Lemma debounced_editor_change e p :
  debounced p ->
  debounced (on_editor_change e p) /\
  pending_converts (on_editor_change e p) =
    [mkTimer (next_handle p) (now p + 800) (CallConvert e)].
Proof.
  intros Hd. destruct (on_editor_change_fields e p Hd)
    as (Hts & Hto' & Hn' & _).
  destruct Hd as (Hnd & Hlt & Hto & Hiff).
  rewrite Forall_forall in Hlt.
  assert (Hsub : filter (fun t => is_convert t = false) (timers p)
                 `sublist_of` timers p) by apply sublist_filter.
  split.
  - unfold debounced. rewrite Hts, Hto', Hn'. split_and!.
    + rewrite fmap_app. apply NoDup_app. split_and!.
      * eapply sublist_NoDup; [exact Hnd|]. by apply fmap_sublist.
      * intros h Hh Hh'. apply list_elem_of_singleton in Hh'. cbn in Hh'.
        apply list_elem_of_fmap in Hh as (u & -> & Hu).
        apply (sublist_subseteq _ _ Hsub), Hlt in Hu. lia.
      * apply NoDup_singleton.
    + apply Forall_app. split.
      * apply Forall_forall. intros u Hu.
        apply (sublist_subseteq _ _ Hsub), Hlt in Hu. lia.
      * repeat constructor.
    + intros h [= <-]. lia.
    + apply Forall_app. split.
      * apply Forall_forall. intros u Hu.
        apply list_elem_of_filter in Hu as [Hc Hu]. rewrite Hc.
        split; [done|]. intros [= E]. apply Hlt in Hu. lia.
      * by repeat constructor.
  - unfold pending_converts. rewrite Hts, filter_app.
    rewrite (filter_nil_in (fun t => is_convert t = true)
               (filter (fun t => is_convert t = false) (timers p))).
    + done.
    + intros u Hu Hc. apply list_elem_of_filter in Hu as [Hc' _]. congruence.
Qed.

Lemma debounced_modify file p :
  debounced p ->
  debounced (on_modify file p) /\
  pending_process (on_modify file p) =
    pending_process p ++ [CallProcessFile file].
Proof.
  intros (Hnd & Hlt & Hto & Hiff). rewrite Forall_forall in Hlt.
  split.
  - unfold debounced, on_modify. cbn. split_and!.
    + rewrite fmap_app. apply NoDup_app. split_and!; [done| |].
      * intros h Hh Hh'. apply list_elem_of_singleton in Hh'. cbn in Hh'.
        apply list_elem_of_fmap in Hh as (u & -> & Hu). apply Hlt in Hu. lia.
      * apply NoDup_singleton.
    + apply Forall_app. split; [|repeat constructor].
      apply Forall_forall. intros u Hu. apply Hlt in Hu. lia.
    + intros h Hh. apply Hto in Hh. lia.
    + apply Forall_app. split; [done|]. constructor; [|done]. cbn.
      split; [done|]. intros Hh. apply Hto in Hh. lia.
  - unfold pending_process, on_modify. cbn. by rewrite filter_app, fmap_app.
Qed.

Lemma run_until_debounced fuel until : forall p,
  debounced p ->
  debounced (run_until fuel until p) /\
  tags (plugin_app (run_until fuel until p)) = tags (plugin_app p).
Proof.
  induction fuel as [|fuel IH]; intros p Hd; [done|].
  cbn [run_until]. destruct (earliest (timers p)) as [t|]; [|done].
  destruct (Nat.leb (due t) until); [|done].
  destruct (fire_fields t p) as (_ & _ & _ & Htg & _).
  destruct (IH (fire t p) (debounced_fire t p Hd)) as [H1 H2].
  split; [done | congruence].
Qed.

Lemma debounced_react p i : debounced p -> debounced (react p i).
Proof.
  intros Hd. destruct i as [e|file| | |ms]; cbn [react].
  - by apply debounced_editor_change.
  - by apply debounced_modify.
  - by apply (debounced_same p).
  - by apply (debounced_same p).
  - destruct (run_until_debounced (length (timers p)) (now p + ms) p Hd)
      as [H _].
    by apply (debounced_same _ _ H).
Qed.

Lemma debounced_foldl inputs : forall p,
  debounced p -> debounced (foldl react p inputs).
Proof.
  induction inputs as [|i inputs IH]; intros p Hd; [done|].
  cbn [foldl]. by apply IH, debounced_react.
Qed.

Lemma debounced_onload a es : debounced (onload (new_plugin a es)).
Proof.
  unfold debounced. cbn. split_and!; try done. apply NoDup_nil_2.
Qed.

(** X11.  Whatever happens after [onload] (editor changes, modified
    files, metadata changes, the command, time passing), at most one
    call of [convertWordsToTags] is pending, and it is the one whose
    handle [this.timeout] holds. *)
Theorem one_pending_conversion a es inputs :
  pending_converts (foldl react (onload (new_plugin a es)) inputs) = [] \/
  exists t,
    pending_converts (foldl react (onload (new_plugin a es)) inputs) = [t] /\
    timeout (foldl react (onload (new_plugin a es)) inputs) = Some (handle t).
Proof.
  pose proof (debounced_foldl inputs _ (debounced_onload a es)) as Hd.
  set (p := foldl react (onload (new_plugin a es)) inputs) in *.
  destruct Hd as (Hnd & _ & _ & Hiff). rewrite Forall_forall in Hiff.
  assert (Hin : forall t, t ∈ pending_converts p ->
                          t ∈ timers p /\ timeout p = Some (handle t)).
  { intros t Ht. apply list_elem_of_filter in Ht as [Hc Ht].
    split; [done|]. by apply (Hiff t Ht). }
  destruct (pending_converts p) as [|t1 [|t2 l]] eqn:E; [by left| |].
  - right. exists t1. split; [done|]. apply Hin. by left.
  - exfalso.
    destruct (Hin t1) as [H1 E1]; [by left|].
    destruct (Hin t2) as [H2 E2]; [right; by left|].
    assert (t1 = t2) as ->
      by (apply (handle_inj _ _ _ Hnd H1 H2); congruence).
    assert (Hnd' : NoDup (pending_converts p)).
    { eapply sublist_NoDup; [exact (NoDup_fmap_1 _ _ Hnd)|].
      apply sublist_filter. }
    rewrite E in Hnd'. apply NoDup_cons in Hnd' as [Hnot _].
    apply Hnot. by left.
Qed.





Lemma react_pending_process p i :
  debounced p -> is_wait i = false ->
  pending_process (react p i) = pending_process p ++ modified [i].
Proof.
  intros Hd Hi. destruct i as [e|file| | |ms]; try done; cbn [react modified
    flat_map app]; rewrite ?app_nil_r; try done.
  - destruct (on_editor_change_fields e p Hd) as (Hts & _).
    unfold pending_process. rewrite Hts, filter_app.
    rewrite list_filter_filter_l by done.
    by rewrite fmap_app, app_nil_r.
  - by apply debounced_modify.
Qed.

(** X13.  Every modification of a file sets its own call of
    [processFile]: as long as no time passes, the pending calls of
    [processFile] are those that were pending, followed by one for each
    modified file in order; editor changes, metadata changes and the
    command cancel none of them and add none. *)
Theorem modify_timers_accumulate a es inputs more :
  forallb (fun i => negb (is_wait i)) more = true ->
  pending_process
    (foldl react (foldl react (onload (new_plugin a es)) inputs) more) =
  pending_process (foldl react (onload (new_plugin a es)) inputs) ++
  modified more.
Proof.
  intros Hmore.
  pose proof (debounced_foldl inputs _ (debounced_onload a es)) as Hd.
  set (p := foldl react (onload (new_plugin a es)) inputs) in *.
  clearbody p. revert p Hd.
  induction more as [|i more IH]; intros p Hd; [by rewrite app_nil_r|].
  cbn [forallb] in Hmore. apply andb_true_iff in Hmore as [Hi Hmore].
  apply negb_true_iff in Hi.
  cbn [foldl]. rewrite (IH Hmore) by by apply debounced_react.
  rewrite react_pending_process by done.
  assert (E : modified (i :: more) = modified [i] ++ modified more)
    by (unfold modified; cbn [flat_map]; by rewrite app_nil_r).
  by rewrite E, app_assoc.
Qed.

Lemma modify_timers_accumulate_witness :
  forallb (fun i => negb (is_wait i))
          [Modify cmd_file; EditorChange 1; Modify cmd_file; EditorChange 2;
           MetadataChanged] = true /\
  pending_process
    (foldl react (foldl react (onload (new_plugin three_notes ∅)) [Wait 7])
           [Modify cmd_file; EditorChange 1; Modify cmd_file; EditorChange 2;
            MetadataChanged]) =
  pending_process (foldl react (onload (new_plugin three_notes ∅)) [Wait 7]) ++
  [CallProcessFile cmd_file; CallProcessFile cmd_file].
Proof.
  split; [reflexivity|].
  by apply (modify_timers_accumulate three_notes ∅ [Wait 7]
              [Modify cmd_file; EditorChange 1; Modify cmd_file;
               EditorChange 2; MetadataChanged]).
Defined.

(** * Further properties: the scan and onload *)

(** X14.  A scan of all files never changes the content of a path that
    belongs to no file with the extension [md], whatever reads and writes
    are rejected: only [processFile] called for such a file by another
    route can touch it. *)
Theorem processAllFiles_leaves_other_paths s q :
  (forall file, file ∈ files s -> path file = q -> extension file <> str "md") ->
  contents (processAllFiles s).2 !! q = contents s !! q.
Proof.
  intros Hq. rewrite processAllFiles_unfold. cbn [snd emit contents].
  destruct (for_each_processFile (getMarkdownFiles s)
              (emit (EvLog (str "Auto Tag Words: Snooping through your files..."))
                    s)) as (_ & _ & _ & _ & _ & Hother & _).
  rewrite Hother; [done|].
  intros Hin. apply list_elem_of_fmap in Hin as (f & -> & Hf).
  unfold getMarkdownFiles in Hf. apply list_elem_of_filter in Hf as [Hmd Hf].
  by apply (Hq f Hf).
Qed.

Lemma processAllFiles_leaves_other_paths_witness :
  (forall file, file ∈ files cmd_vault -> path file = str "run.cmd" ->
                extension file <> str "md") /\
  contents (processAllFiles cmd_vault).2 !! str "run.cmd" =
  Some (str "start project").
Proof.
  assert (H : forall file, file ∈ files cmd_vault ->
                path file = str "run.cmd" -> extension file <> str "md").
  { intros file Hf _. cbn in Hf. apply list_elem_of_singleton in Hf as ->.
    by vm_compute. }
  split; [exact H|].
  rewrite (processAllFiles_leaves_other_paths cmd_vault (str "run.cmd") H).
  by vm_compute.
Defined.

Lemma updateTags_frame s :
  files (updateTags s).2 = files s /\
  contents (updateTags s).2 = contents s /\
  unreadable (updateTags s).2 = unreadable s /\
  unwritable (updateTags s).2 = unwritable s /\
  metadata (updateTags s).2 = metadata s.
Proof. done. Qed.



(** * Further properties: the registry and already tagged text *)

Lemma first_occurrences_snoc l x :
  first_occurrences (l ++ [x]) =
  if negb (Array_includes (first_occurrences l) x)
  then first_occurrences l ++ [x] else first_occurrences l.
Proof.
  unfold first_occurrences. rewrite reverse_snoc. cbn [remove_dups].
  assert (Hiff : Array_includes (reverse (remove_dups (reverse l))) x = true
                 <-> x ∈ reverse l)
    by by rewrite Array_includes_elem_of, elem_of_reverse, elem_of_remove_dups.
  destruct (decide_rel elem_of x (reverse l)) as [Hin | Hnin].
  - apply Hiff in Hin. by rewrite Hin.
  - destruct (Array_includes _ x) eqn:E; [by destruct Hnin; apply Hiff|].
    cbn [negb]. by rewrite reverse_cons.
Qed.

Lemma push_tags_first_occurrences ts : forall l,
  push_tags (first_occurrences l) ts = first_occurrences (l ++ (tag <$> ts)).
Proof.
  unfold push_tags. induction ts as [|t ts IH]; intros l.
  - by rewrite app_nil_r.
  - cbn [fold_left fmap list_fmap].
    rewrite <- first_occurrences_snoc, IH, <- app_assoc. done.
Qed.

Lemma collect_tags_first_occurrences s fs : forall l,
  collect_tags s fs (first_occurrences l) =
  first_occurrences
    (l ++ flat_map (fun file =>
                      match getFileCache s file with
                      | Some cache =>
                          match cm_tags cache with
                          | Some ts => tag <$> ts
                          | None => []
                          end
                      | None => []
                      end) fs).
Proof.
  unfold collect_tags. induction fs as [|file fs IH]; intros l.
  - by rewrite app_nil_r.
  - cbn [fold_left flat_map]. rewrite app_assoc, <- IH.
    destruct (getFileCache s file) as [cache|]; [|by rewrite app_nil_r].
    destruct (cm_tags cache) as [ts|]; [|by rewrite app_nil_r].
    by rewrite push_tags_first_occurrences.
Qed.

(** X16.  The registry that [updateTags] builds lists the cached tags of
    the markdown files without repetition and in the order in which they
    first appear, file after file: this is the order in which a rewrite
    pass applies them. *)
Theorem updateTags_order s :
  tags (updateTags s).2 = first_occurrences (cached_tags s).
Proof.
  change (tags (updateTags s).2)
    with (collect_tags s (getMarkdownFiles s) (first_occurrences [])).
  by rewrite collect_tags_first_occurrences.
Qed.

(** X17.  On the strings of the embedding (code units below 256), whatever
    the registry, a text in which every occurrence of every tag's bare
    word, in any casing (the letters of Latin-1 included), stands right
    after a [#] is returned as it is, with [changed = false]: the pass
    touches nothing that is already tagged. *)
Theorem tagged_text_is_fixed tags text :
  Forall (fun tag => occurs_untagged (bare_word tag) false text = false) tags ->
  RewriteEngine tags text = Some (text, false).
Proof.
  intros Htags. rewrite RewriteEngine_total.
  destruct (pass_quiet tags text false) as [-> ->]; [|done].
  eapply Forall_impl; [exact Htags|]. intros tag H.
  by apply (occurs_untagged_quiet _ []).
Qed.

Lemma tagged_text_is_fixed_witness :
  Forall (fun tag => occurs_untagged (bare_word tag) false
                       (str "about #c++ and #To-Do, see #todo") = false)
         [str "#c++"; str "#to-do"; str "#TODO"; str "#missing"] /\
  RewriteEngine [str "#c++"; str "#to-do"; str "#TODO"; str "#missing"]
                (str "about #c++ and #To-Do, see #todo") =
  Some (str "about #c++ and #To-Do, see #todo", false).
Proof.
  assert (H : Forall (fun tag => occurs_untagged (bare_word tag) false
                        (str "about #c++ and #To-Do, see #todo") = false)
                [str "#c++"; str "#to-do"; str "#TODO"; str "#missing"])
    by by repeat constructor.
  split; [exact H|]. by apply tagged_text_is_fixed.
Defined.
